(** * Quantile-mapping bias correction and Bayesian model averaging

    A shallow embedding of
    [python-backend/algorithms/scientific/bias_correction.py]
    ([QuantileMappingCorrection]) and
    [python-backend/algorithms/scientific/bayesian_ensemble.py]
    ([BayesianModelAveraging]).

    Floating-point numbers are modelled by exact real arithmetic (no
    rounding), extended with the non-finite values numpy produces: a
    float64 division by zero, a logarithm of zero, ... return
    [inf], [-inf] or [nan] (with a runtime warning) instead of raising.
    Signed zeros are not modelled: every zero is [+0.0]. *)

From Stdlib Require Import Strings.String Bool.
From Stdlib Require Import Reals Lra Lia List Sorting.Sorted Sorting.Permutation.
Import ListNotations.
Open Scope R_scope.

(** ** Python floats *)

Module PyFloat.

Inductive pyf : Type :=
| Fin (r : R)
| PInf
| NInf
| NaN.

Definition neg (a : pyf) : pyf :=
  match a with
  | Fin r => Fin (- r)
  | PInf => NInf
  | NInf => PInf
  | NaN => NaN
  end.

Definition add (a b : pyf) : pyf :=
  match a, b with
  | NaN, _ | _, NaN => NaN
  | Fin x, Fin y => Fin (x + y)
  | PInf, NInf | NInf, PInf => NaN
  | PInf, _ | _, PInf => PInf
  | NInf, _ | _, NInf => NInf
  end.

Definition sub (a b : pyf) : pyf := add a (neg b).

(** The sign of a finite factor multiplying an infinity. *)
Definition inf_times (positive : bool) (r : R) : pyf :=
  if Req_EM_T r 0 then NaN
  else if Rlt_dec 0 r then (if positive then PInf else NInf)
  else (if positive then NInf else PInf).

Definition mul (a b : pyf) : pyf :=
  match a, b with
  | NaN, _ | _, NaN => NaN
  | Fin x, Fin y => Fin (x * y)
  | PInf, Fin y | Fin y, PInf => inf_times true y
  | NInf, Fin y | Fin y, NInf => inf_times false y
  | PInf, PInf | NInf, NInf => PInf
  | PInf, NInf | NInf, PInf => NInf
  end.

Definition div (a b : pyf) : pyf :=
  match a, b with
  | NaN, _ | _, NaN => NaN
  | Fin x, Fin y =>
      if Req_EM_T y 0 then
        (if Req_EM_T x 0 then NaN
         else if Rlt_dec 0 x then PInf else NInf)
      else Fin (x / y)
  | Fin _, (PInf | NInf) => Fin 0
  | PInf, Fin y =>
      if Req_EM_T y 0 then PInf else inf_times true y
  | NInf, Fin y =>
      if Req_EM_T y 0 then NInf else inf_times false y
  | (PInf | NInf), (PInf | NInf) => NaN
  end.

Definition exp (a : pyf) : pyf :=
  match a with
  | Fin r => Fin (Rtrigo_def.exp r)
  | PInf => PInf
  | NInf => Fin 0
  | NaN => NaN
  end.

Definition log (a : pyf) : pyf :=
  match a with
  | Fin r =>
      if Rlt_dec 0 r then Fin (ln r)
      else if Req_EM_T r 0 then NInf else NaN
  | PInf => PInf
  | NInf | NaN => NaN
  end.

Definition sqrt (a : pyf) : pyf :=
  match a with
  | Fin r => if Rle_dec 0 r then Fin (R_sqrt.sqrt r) else NaN
  | PInf => PInf
  | NInf | NaN => NaN
  end.

Definition abs (a : pyf) : pyf :=
  match a with
  | Fin r => Fin (Rabs r)
  | PInf | NInf => PInf
  | NaN => NaN
  end.

(** Python's [x != 0] and [x > 0] on a float. *)
Definition ne0 (a : pyf) : bool :=
  match a with
  | Fin r => if Req_EM_T r 0 then false else true
  | _ => true
  end.

Definition gt0 (a : pyf) : bool :=
  match a with
  | Fin r => if Rlt_dec 0 r then true else false
  | PInf => true
  | _ => false
  end.

(** Builtin [sum]: starts at [0] and adds left to right. *)
Definition sum (l : list pyf) : pyf := fold_left add l (Fin 0).

End PyFloat.

Import PyFloat.

(** ** Python exceptions raised along the modelled paths *)

Inductive exn : Type :=
| ValueError
| IndexError
| AttributeError
| UnboundLocalError
| RecursionError.

(** ** numpy helpers on real vectors *)

Definition Rltb (x y : R) : bool := if Rlt_dec x y then true else false.
Definition Rleb (x y : R) : bool := if Rle_dec x y then true else false.

Fixpoint sum_R (l : list R) : R :=
  match l with
  | [] => 0
  | x :: t => x + sum_R t
  end.

(** [np.mean]: [nan] (with a warning) on an empty array. *)
Definition np_mean (l : list R) : pyf :=
  match l with
  | [] => NaN
  | _ => Fin (sum_R l / INR (length l))
  end.

(** [np.var(x, ddof=0)]: the mean of the squared deviations from the mean. *)
Definition np_var (l : list R) : pyf :=
  match l with
  | [] => NaN
  | _ =>
      let m := sum_R l / INR (length l) in
      Fin (sum_R (map (fun x => (x - m) ^ 2) l) / INR (length l))
  end.

Definition np_std (l : list R) : pyf := PyFloat.sqrt (np_var l).

(** Element-wise binary operation with numpy broadcasting of 1-D arrays:
    equal lengths, or one operand of length 1; otherwise [ValueError]. *)
Definition bcast {A : Type} (f : A -> A -> A) (xs ys : list A) : exn + list A :=
  if Nat.eqb (length xs) (length ys) then inr (map (fun p => f (fst p) (snd p)) (combine xs ys))
  else match xs, ys with
       | [x], _ => inr (map (f x) ys)
       | _, [y] => inr (map (fun x => f x y) xs)
       | _, _ => inl ValueError
       end.

(** [np.sort] of a float array without [nan]: the sorted permutation,
    computed here by insertion. *)
Fixpoint insert_sorted (x : R) (l : list R) : list R :=
  match l with
  | [] => [x]
  | y :: t => if Rle_dec x y then x :: y :: t else y :: insert_sorted x t
  end.

Definition np_sort (l : list R) : list R := fold_right insert_sorted [] l.

(** [np.min] / [np.max] of a non-empty array. *)
Definition np_min (l : list R) : R :=
  match l with [] => 0 | x :: t => fold_left Rmin t x end.
Definition np_max (l : list R) : R :=
  match l with [] => 0 | x :: t => fold_left Rmax t x end.

(** ** [scipy.interpolate.interp1d] with [kind='linear'],
    [bounds_error=False] and a pair [fill_value=(below, above)]

    For 1-D float data and a non-extrapolating fill value scipy delegates
    to [np.interp] and then overwrites the out-of-range points with the
    fill values. The constructor checks that [x] and [y] have the same
    length and at least one entry (a linear [interp1d] needs one point;
    [np.interp] on a one-point table returns its value); it argsorts [x]
    with a stable sort, which is the identity on the already sorted arrays
    passed here. *)

Record interp1d : Type := mkInterp1d {
  ix : list R;
  iy : list R;
  fill_below : R;
  fill_above : R
}.

Definition make_interp1d (x y : list R) (below above : R) : exn + interp1d :=
  if negb (Nat.eqb (length x) (length y)) then inl ValueError
  else if Nat.ltb (length x) 1 then inl ValueError
  else inr (mkInterp1d x y below above).

(** The kernel of [np.interp] for a point [xp[0] <= x <= xp[-1]]: find the
    last [j] with [xp[j] <= x] (a left-to-right scan of the sorted [xp]
    finds the index the binary search of numpy finds), return [fp[j]] when
    [j] is the last index or [xp[j] == x], and interpolate linearly
    otherwise. The last case never meets [nan] on finite data, so numpy's
    retry from the right end is not needed. *)
Fixpoint interp_scan (x : R) (xp fp : list R) : R :=
  match xp, fp with
  | x0 :: ((x1 :: _) as xt), y0 :: ((y1 :: _) as yt) =>
      if Rle_dec x1 x then interp_scan x xt yt
      else if Req_EM_T x0 x then y0
      else (y1 - y0) / (x1 - x0) * (x - x0) + y0
  | _, y0 :: _ => y0
  | _, [] => 0
  end.

Definition interp1d_call (f : interp1d) (x : R) : R :=
  if Rlt_dec x (hd 0 (ix f)) then fill_below f
  else if Rlt_dec (last (ix f) 0) x then fill_above f
  else interp_scan x (ix f) (iy f).

(** [(np.arange(1, n + 1) - 0.5) / n] *)
Definition rank_quantiles (n : nat) : list R :=
  map (fun i => (INR i - / 2) / INR n) (seq 1 n).

(** [a[0]] and [a[-1]] on a 1-D array. *)
Definition first_elem (l : list R) : exn + R :=
  match l with [] => inl IndexError | x :: _ => inr x end.
Definition last_elem (l : list R) : exn + R :=
  match l with [] => inl IndexError | x :: _ => inr (last l x) end.

(** ** [QuantileMappingCorrection] *)

(** [stats.gamma.fit] returns [(shape, loc, scale)]. *)
Definition gamma_params : Type := (R * R * R)%type.

(** The instance attributes. An attribute that [fit] has not yet
    assigned is [None] (reading it raises [AttributeError]). The
    attributes [model_cdf] and [obs_cdf] are set to [None] by
    [__init__] and never read, and are left out. *)
Record QMC : Type := mkQMC {
  method : string;
  fitted : bool;
  model_data : option (list R);
  obs_data : option (list R);
  quantiles : option (list R);
  model_to_quantile : option interp1d;
  quantile_to_obs : option interp1d;
  model_mean : option pyf;
  model_std : option pyf;
  obs_mean : option pyf;
  obs_std : option pyf;
  model_gamma : option gamma_params;
  obs_gamma : option gamma_params
}.

(** [QuantileMappingCorrection(method)] *)
Definition qmc_init (m : string) : QMC :=
  mkQMC m false None None None None None None None None None None None.

Definition set_method (m : string) (s : QMC) : QMC :=
  mkQMC m (fitted s) (model_data s) (obs_data s) (quantiles s)
    (model_to_quantile s) (quantile_to_obs s) (model_mean s) (model_std s)
    (obs_mean s) (obs_std s) (model_gamma s) (obs_gamma s).

Definition set_fitted (b : bool) (s : QMC) : QMC :=
  mkQMC (method s) b (model_data s) (obs_data s) (quantiles s)
    (model_to_quantile s) (quantile_to_obs s) (model_mean s) (model_std s)
    (obs_mean s) (obs_std s) (model_gamma s) (obs_gamma s).

Definition set_model_data (d : list R) (s : QMC) : QMC :=
  mkQMC (method s) (fitted s) (Some d) (obs_data s) (quantiles s)
    (model_to_quantile s) (quantile_to_obs s) (model_mean s) (model_std s)
    (obs_mean s) (obs_std s) (model_gamma s) (obs_gamma s).

Definition set_obs_data (d : list R) (s : QMC) : QMC :=
  mkQMC (method s) (fitted s) (model_data s) (Some d) (quantiles s)
    (model_to_quantile s) (quantile_to_obs s) (model_mean s) (model_std s)
    (obs_mean s) (obs_std s) (model_gamma s) (obs_gamma s).

Definition set_quantiles (q : list R) (s : QMC) : QMC :=
  mkQMC (method s) (fitted s) (model_data s) (obs_data s) (Some q)
    (model_to_quantile s) (quantile_to_obs s) (model_mean s) (model_std s)
    (obs_mean s) (obs_std s) (model_gamma s) (obs_gamma s).

Definition set_model_to_quantile (f : interp1d) (s : QMC) : QMC :=
  mkQMC (method s) (fitted s) (model_data s) (obs_data s) (quantiles s)
    (Some f) (quantile_to_obs s) (model_mean s) (model_std s)
    (obs_mean s) (obs_std s) (model_gamma s) (obs_gamma s).

Definition set_quantile_to_obs (f : interp1d) (s : QMC) : QMC :=
  mkQMC (method s) (fitted s) (model_data s) (obs_data s) (quantiles s)
    (model_to_quantile s) (Some f) (model_mean s) (model_std s)
    (obs_mean s) (obs_std s) (model_gamma s) (obs_gamma s).

Definition set_normal (mm ms om os : pyf) (s : QMC) : QMC :=
  mkQMC (method s) (fitted s) (model_data s) (obs_data s) (quantiles s)
    (model_to_quantile s) (quantile_to_obs s) (Some mm) (Some ms)
    (Some om) (Some os) (model_gamma s) (obs_gamma s).

Definition set_model_gamma (mg : gamma_params) (s : QMC) : QMC :=
  mkQMC (method s) (fitted s) (model_data s) (obs_data s) (quantiles s)
    (model_to_quantile s) (quantile_to_obs s) (model_mean s) (model_std s)
    (obs_mean s) (obs_std s) (Some mg) (obs_gamma s).

Definition set_obs_gamma (og : gamma_params) (s : QMC) : QMC :=
  mkQMC (method s) (fitted s) (model_data s) (obs_data s) (quantiles s)
    (model_to_quantile s) (quantile_to_obs s) (model_mean s) (model_std s)
    (obs_mean s) (obs_std s) (model_gamma s) (Some og).

(** Methods mutate [self] and may raise; the mutations made before an
    exception persist. *)
Definition M (A : Type) : Type := QMC -> QMC * (exn + A).

Definition ret {A : Type} (a : A) : M A := fun s => (s, inr a).
Definition bind {A B : Type} (m : M A) (k : A -> M B) : M B :=
  fun s => match m s with
           | (s', inl e) => (s', inl e)
           | (s', inr a) => k a s'
           end.
Definition get : M QMC := fun s => (s, inr s).
Definition modify (f : QMC -> QMC) : M unit := fun s => (f s, inr tt).
Definition raise {A : Type} (e : exn) : M A := fun s => (s, inl e).
Definition lift {A : Type} (r : exn + A) : M A :=
  fun s => match r with inl e => (s, inl e) | inr a => (s, inr a) end.

Notation "x <- m ;; k" := (bind m (fun x => k))
  (at level 61, m at next level, right associativity).
Notation "m ;; k" := (bind m (fun _ => k))
  (at level 61, right associativity).

Definition is_pos (x : R) : bool := Rltb 0 x.

Section Quantile_mapping.

(** The gamma distribution of scipy: [stats.gamma.fit(data, floc=0)],
    [stats.gamma.cdf(x, *params)] and [stats.gamma.ppf(q, *params)]. *)
Variable gamma_fit : list R -> exn + gamma_params.
Variable gamma_cdf : R -> gamma_params -> pyf.
Variable gamma_ppf : pyf -> gamma_params -> pyf.

(** One activation of [fit]; [self_fit] is the bound method [self.fit]
    called by the gamma fallback. *)
Definition fit_body (self_fit : list R -> list R -> M unit)
    (md od : list R) : M unit :=
  modify (set_model_data (np_sort md)) ;;
  modify (set_obs_data (np_sort od)) ;;
  s <- get ;;
  let ms := np_sort md in
  let os := np_sort od in
  if String.eqb (method s) "empirical" then
    let q := rank_quantiles (length ms) in
    modify (set_quantiles q) ;;
    f1 <- lift (make_interp1d ms q 0 1) ;;
    modify (set_model_to_quantile f1) ;;
    lo <- lift (first_elem os) ;;
    hi <- lift (last_elem os) ;;
    f2 <- lift (make_interp1d q os lo hi) ;;
    modify (set_quantile_to_obs f2) ;;
    modify (set_fitted true)
  else if String.eqb (method s) "parametric_normal" then
    modify (set_normal (np_mean md) (np_std md) (np_mean od) (np_std od)) ;;
    modify (set_fitted true)
  else if String.eqb (method s) "parametric_gamma" then
    let model_pos := filter is_pos md in
    let obs_pos := filter is_pos od in
    if Nat.ltb 2 (length model_pos) && Nat.ltb 2 (length obs_pos) then
      mg <- lift (gamma_fit model_pos) ;;
      modify (set_model_gamma mg) ;;
      og <- lift (gamma_fit obs_pos) ;;
      modify (set_obs_gamma og) ;;
      modify (set_fitted true)
    else
      modify (set_method "empirical") ;;
      self_fit md od ;;
      ret tt
  else
    modify (set_fitted true).

(** [fit] with its recursion unfolded [depth] times; Python's recursion
    limit raises [RecursionError]. The nested call runs with method
    [empirical], which does not recurse, so two levels are all that can
    execute: [fit_depth_irrelevant] shows that any depth [>= 2] gives
    the same result. *)
Fixpoint fit_depth (depth : nat) : list R -> list R -> M unit :=
  match depth with
  | O => fun _ _ => raise RecursionError
  | S d => fit_body (fit_depth d)
  end.

Definition fit : list R -> list R -> M unit := fit_depth 2.

(** [transform] reads the fitted state and does not change it. *)
Definition attr {A : Type} (o : option A) : exn + A :=
  match o with None => inl AttributeError | Some a => inr a end.

Definition transform (s : QMC) (model_values : list R) : exn + list pyf :=
  if negb (fitted s) then inl ValueError
  else if String.eqb (method s) "empirical" then
    match attr (model_to_quantile s), attr (quantile_to_obs s) with
    | inr f1, inr f2 =>
        inr (map (fun v => Fin (interp1d_call f2 (interp1d_call f1 v))) model_values)
    | inl e, _ | _, inl e => inl e
    end
  else if String.eqb (method s) "parametric_normal" then
    match model_mean s, model_std s, obs_std s, obs_mean s with
    | Some mm, Some msd, Some osd, Some om =>
        inr (map (fun v => add (mul (div (sub (Fin v) mm) msd) osd) om) model_values)
    | _, _, _, _ => inl AttributeError
    end
  else if String.eqb (method s) "parametric_gamma" then
    match model_gamma s, obs_gamma s with
    | Some mg, Some og =>
        inr (map (fun v => if is_pos v then gamma_ppf (gamma_cdf v mg) og else Fin 0)
                 model_values)
    | _, _ => inl AttributeError
    end
  else inl UnboundLocalError.

End Quantile_mapping.

(** [stats.gamma.fit(data, floc=0)] of scipy ([gamma_gen.fit] with a
    fixed location): it raises [FitDataError], a [ValueError], when a value
    is [<= floc = 0]; otherwise it computes
    [s = log(mean(data)) - mean(log(data))], starts the shape at
    [aest = (3 - s + sqrt((s - 3) ** 2 + 24 * s)) / (12 * s)] and finds with
    [brentq] on [[0.6 * aest, 1.4 * aest]] the root [a] of
    [log(a) - digamma(a) = s]; the scale is [mean(data) / a]. On constant
    data such as [[1, 1, 1]], [s = 0]: [aest] is [inf], [brentq] finds
    [nan] at both ends and raises [ValueError]. The root found by
    [brentq] is the parameter [shape_root] (the Standard Library has no
    digamma); the path to it is modelled. *)
Definition gamma_fit_floc0 (shape_root : R -> R) (data : list R) : exn + gamma_params :=
  if existsb (fun x => Rleb x 0) data then inl ValueError
  else
    let xbar := sum_R data / INR (length data) in
    let s := ln xbar - sum_R (map ln data) / INR (length data) in
    if Req_EM_T s 0 then inl ValueError
    else let a := shape_root s in inr (a, 0, xbar / a).

(** A concrete family to run the corrector on explicit inputs: the
    exponential distributions, gamma laws of shape [1] (the root is fixed
    to [1], so the scale is the mean), with their cdf
    [1 - exp(-x / scale)] and ppf [-scale * log(1 - q)]. *)
Definition exp_gamma_fit : list R -> exn + gamma_params := gamma_fit_floc0 (fun _ => 1).
Definition exp_gamma_cdf (x : R) (p : gamma_params) : pyf :=
  let '(_, _, scale) := p in Fin (1 - Rtrigo_def.exp (- (x / scale))).
Definition exp_gamma_ppf (q : pyf) (p : gamma_params) : pyf :=
  let '(_, _, scale) := p in
  match q with
  | Fin r => if Rlt_dec r 1 then Fin (- scale * ln (1 - r)) else PInf
  | _ => NaN
  end.

(** * Proofs *)

(** ** Sorting *)

Lemma insert_sorted_perm (x : R) (l : list R) :
  Permutation (x :: l) (insert_sorted x l).
Proof.
  induction l as [|y t IH]; simpl; [auto|].
  destruct (Rle_dec x y); [auto|].
  eapply perm_trans; [apply perm_swap|]. constructor. exact IH.
Qed.

Lemma np_sort_perm (l : list R) : Permutation l (np_sort l).
Proof.
  induction l as [|x t IH]; simpl; [auto|].
  eapply perm_trans; [|apply insert_sorted_perm]. constructor. exact IH.
Qed.

Lemma np_sort_length (l : list R) : length (np_sort l) = length l.
Proof. symmetry. apply Permutation_length, np_sort_perm. Qed.

Lemma np_sort_in (l : list R) (x : R) : In x (np_sort l) -> In x l.
Proof. intro H. eapply Permutation_in; [symmetry; apply np_sort_perm|exact H]. Qed.

Lemma insert_sorted_sorted (x : R) (l : list R) :
  Sorted Rle l -> Sorted Rle (insert_sorted x l).
Proof.
  induction l as [|y t IH]; simpl; intro H.
  - repeat constructor.
  - destruct (Rle_dec x y) as [Hxy|Hxy].
    + constructor; [exact H|constructor; exact Hxy].
    + inversion H as [|? ? Ht Hhd]; subst.
      constructor; [apply IH; exact Ht|].
      destruct t as [|z t']; simpl.
      * constructor. lra.
      * destruct (Rle_dec x z); constructor; [lra|].
        inversion Hhd; assumption.
Qed.

Lemma np_sort_sorted (l : list R) : Sorted Rle (np_sort l).
Proof.
  induction l as [|x t IH]; simpl; [constructor|].
  apply insert_sorted_sorted, IH.
Qed.

#[local] Instance Rle_Transitive : RelationClasses.Transitive Rle.
Proof. intros a b c; apply Rle_trans. Qed.

Lemma last_in (l : list R) (d : R) : l <> [] -> In (last l d) l.
Proof.
  induction l as [|x t IH]; intro H; [congruence|].
  destruct t as [|y t']; simpl; [auto|].
  right. apply IH. discriminate.
Qed.

Lemma last_default (l : list R) (d1 d2 : R) : l <> [] -> last l d1 = last l d2.
Proof.
  induction l as [|x t IH]; intro H; [congruence|].
  destruct t as [|y t']; [reflexivity|].
  apply IH. discriminate.
Qed.

Lemma sorted_hd_le_last (y : R) (l : list R) :
  Sorted Rle (y :: l) -> y <= last (y :: l) 0.
Proof.
  intro H. apply Sorted_StronglySorted in H; [|exact Rle_Transitive].
  inversion H as [|? ? _ Hall]; subst.
  destruct l as [|z t]; [simpl; lra|].
  change (last (y :: z :: t) 0) with (last (z :: t) 0).
  rewrite Forall_forall in Hall. apply Hall.
  apply last_in. discriminate.
Qed.

(** ** np.min and np.max *)

Lemma fold_Rmin_le (t : list R) (acc : R) :
  fold_left Rmin t acc <= acc /\ forall z, In z t -> fold_left Rmin t acc <= z.
Proof.
  revert acc. induction t as [|x t IH]; intro acc; simpl.
  - split; [lra|tauto].
  - destruct (IH (Rmin acc x)) as [H1 H2]. split.
    + eapply Rle_trans; [exact H1|apply Rmin_l].
    + intros z [->|Hz]; [eapply Rle_trans; [exact H1|apply Rmin_r]|auto].
Qed.

Lemma fold_Rmax_ge (t : list R) (acc : R) :
  acc <= fold_left Rmax t acc /\ forall z, In z t -> z <= fold_left Rmax t acc.
Proof.
  revert acc. induction t as [|x t IH]; intro acc; simpl.
  - split; [lra|tauto].
  - destruct (IH (Rmax acc x)) as [H1 H2]. split.
    + eapply Rle_trans; [apply Rmax_l|exact H1].
    + intros z [->|Hz]; [eapply Rle_trans; [apply Rmax_r|exact H1]|auto].
Qed.

Lemma np_min_le (l : list R) (z : R) : In z l -> np_min l <= z.
Proof.
  destruct l as [|x t]; [contradiction|]. simpl.
  destruct (fold_Rmin_le t x) as [H1 H2]. intros [->|Hz]; auto.
Qed.

Lemma np_max_ge (l : list R) (z : R) : In z l -> z <= np_max l.
Proof.
  destruct l as [|x t]; [contradiction|]. simpl.
  destruct (fold_Rmax_ge t x) as [H1 H2]. intros [->|Hz]; auto.
Qed.

(** ** Linear interpolation stays between the end values of sorted data *)

Lemma interp_scan_cons2 (x x0 x1 y0 y1 : R) (xt yt : list R) :
  interp_scan x (x0 :: x1 :: xt) (y0 :: y1 :: yt) =
  if Rle_dec x1 x then interp_scan x (x1 :: xt) (y1 :: yt)
  else if Req_EM_T x0 x then y0
  else (y1 - y0) / (x1 - x0) * (x - x0) + y0.
Proof. reflexivity. Qed.

Lemma interp_scan_bounds (x : R) (xp fp : list R) :
  length xp = length fp -> fp <> [] -> Sorted Rle fp -> hd 0 xp <= x ->
  hd 0 fp <= interp_scan x xp fp <= last fp 0.
Proof.
  revert fp. induction xp as [|x0 xt IH]; intros fp Hlen Hne Hs Hx.
  - destruct fp; [congruence|discriminate].
  - destruct fp as [|y0 yt]; [congruence|].
    destruct xt as [|x1 xt'].
    + destruct yt as [|y1 yt']; [simpl; lra|discriminate].
    + destruct yt as [|y1 yt']; [discriminate|].
      simpl in Hx. rewrite interp_scan_cons2.
      change (last (y0 :: y1 :: yt') 0) with (last (y1 :: yt') 0).
      inversion Hs as [|? ? Hs' Hhd]; subst.
      inversion Hhd as [|? ? Hy01]; subst.
      pose proof (sorted_hd_le_last y1 yt' Hs') as Hlast.
      destruct (Rle_dec x1 x) as [H1|H1].
      * destruct (IH (y1 :: yt')) as [Hlo Hhi]; auto; [discriminate|].
        simpl hd in *. split; lra.
      * remember (last (y1 :: yt') 0) as L.
        simpl hd.
        destruct (Req_EM_T x0 x) as [H0|H0]; [lra|].
        assert (Hd : 0 < x1 - x0) by lra.
        set (t := (x - x0) / (x1 - x0)).
        assert (Heq : t * (x1 - x0) = x - x0) by (unfold t; field; lra).
        assert (Ht0 : 0 <= t) by nra.
        assert (Ht1 : t <= 1) by nra.
        replace ((y1 - y0) / (x1 - x0) * (x - x0) + y0) with ((y1 - y0) * t + y0)
          by (unfold t; field; lra).
        split; nra.
Qed.

Lemma interp1d_call_bounds (qs ys : list R) (q : R) (lo hi : R) :
  length qs = length ys -> ys <> [] -> Sorted Rle ys ->
  lo = hd 0 ys -> hi = last ys 0 ->
  hd 0 ys <= interp1d_call (mkInterp1d qs ys lo hi) q <= last ys 0.
Proof.
  intros Hlen Hne Hs -> ->.
  destruct ys as [|y0 yt]; [congruence|].
  pose proof (sorted_hd_le_last y0 yt Hs).
  unfold interp1d_call; cbn [ix iy fill_below fill_above].
  destruct (Rlt_dec q (hd 0 qs)); [simpl hd; lra|].
  destruct (Rlt_dec (last qs 0) q); [simpl hd; lra|].
  apply interp_scan_bounds; auto. lra.
Qed.

(** ** The empirical branch of [fit] *)

Lemma rank_quantiles_length (n : nat) : length (rank_quantiles n) = n.
Proof. unfold rank_quantiles. rewrite length_map, length_seq. reflexivity. Qed.

(** The state left by a successful empirical fit. *)
Definition empirical_fitted (md od : list R) (s : QMC) : QMC :=
  let ms := np_sort md in
  let os := np_sort od in
  let q := rank_quantiles (length ms) in
  set_fitted true
    (set_quantile_to_obs (mkInterp1d q os (hd 0 os) (last os 0))
      (set_model_to_quantile (mkInterp1d ms q 0 1)
        (set_quantiles q (set_obs_data os (set_model_data ms s))))).

Lemma fit_body_empirical (f : list R -> list R -> M unit) (gf : list R -> exn + gamma_params)
    (md od : list R) (s : QMC) :
  method s = "empirical"%string -> length md = length od -> (1 <= length md)%nat ->
  fit_body gf f md od s = (empirical_fitted md od s, inr tt).
Proof.
  intros Hm Hl H2.
  unfold fit_body, empirical_fitted, bind, modify, get, lift, ret.
  cbv beta iota.
  change (method (set_obs_data (np_sort od) (set_model_data (np_sort md) s))) with (method s).
  rewrite Hm, String.eqb_refl. cbv beta iota zeta.
  unfold make_interp1d. rewrite rank_quantiles_length, !np_sort_length, <- Hl, Nat.eqb_refl.
  cbv beta iota.
  destruct (Nat.ltb_ge (length md) 1) as [_ Hlt]. rewrite (Hlt H2).
  cbv beta iota.
  assert (Hos : np_sort od <> []).
  { intro E. pose proof (np_sort_length od) as L. rewrite E in L. simpl in L. lia. }
  destruct (np_sort od) as [|o ot]; [congruence|].
  cbn [first_elem last_elem]. cbv beta iota.
  rewrite (last_default (o :: ot) o 0) by discriminate. reflexivity.
Qed.

Lemma fit_empirical (gf : list R -> exn + gamma_params) (md od : list R) (s : QMC) :
  method s = "empirical"%string -> length md = length od -> (1 <= length md)%nat ->
  fit gf md od s = (empirical_fitted md od s, inr tt).
Proof. intros. unfold fit, fit_depth. apply fit_body_empirical; assumption. Qed.

(** With series of different lengths the second [interp1d] raises. *)
Lemma fit_body_empirical_mismatch (f : list R -> list R -> M unit)
    (gf : list R -> exn + gamma_params) (md od : list R) (s : QMC) :
  method s = "empirical"%string -> length md <> length od -> (1 <= length md)%nat ->
  od <> [] ->
  exists s', fit_body gf f md od s = (s', inl ValueError) /\ fitted s' = fitted s /\
             method s' = method s.
Proof.
  intros Hm Hl H2 Hod.
  unfold fit_body, bind, modify, get, lift, ret.
  cbv beta iota.
  change (method (set_obs_data (np_sort od) (set_model_data (np_sort md) s))) with (method s).
  rewrite Hm, String.eqb_refl. cbv beta iota zeta.
  unfold make_interp1d at 1. rewrite rank_quantiles_length, !np_sort_length, Nat.eqb_refl.
  cbv beta iota.
  destruct (Nat.ltb_ge (length md) 1) as [_ Hlt]. rewrite (Hlt H2).
  cbv beta iota.
  assert (Hos : np_sort od <> []).
  { intro E. pose proof (np_sort_length od) as L. rewrite E in L.
    destruct od; [congruence|discriminate]. }
  pose proof (np_sort_length od) as Lod.
  destruct (np_sort od) as [|o ot]; [congruence|].
  cbn [first_elem last_elem]. cbv beta iota.
  unfold make_interp1d. rewrite rank_quantiles_length, Lod.
  destruct (Nat.eqb_spec (length md) (length od)) as [E|E]; [contradiction|].
  cbv beta iota. eexists; split; [reflexivity|split; [reflexivity|exact Hm]].
Qed.

(** [transform] after an empirical fit passes every value through both
    interpolators. *)
Lemma transform_empirical_fitted (gc : R -> gamma_params -> pyf)
    (gp : pyf -> gamma_params -> pyf) (md od vals : list R) (s : QMC) :
  method s = "empirical"%string ->
  transform gc gp (empirical_fitted md od s) vals =
  inr (map (fun v =>
         Fin (interp1d_call
                (mkInterp1d (rank_quantiles (length (np_sort md))) (np_sort od)
                   (hd 0 (np_sort od)) (last (np_sort od) 0))
                (interp1d_call
                   (mkInterp1d (np_sort md) (rank_quantiles (length (np_sort md))) 0 1)
                   v))) vals).
Proof.
  intro Hm. unfold transform.
  change (fitted (empirical_fitted md od s)) with true.
  change (method (empirical_fitted md od s)) with (method s).
  rewrite Hm, String.eqb_refl. reflexivity.
Qed.

(** Every empirical correction lies between the smallest and the largest
    observation, whatever the input value. *)
Lemma empirical_value_bounds (md od : list R) (v : R) :
  length md = length od -> od <> [] ->
  let y := interp1d_call
             (mkInterp1d (rank_quantiles (length (np_sort md))) (np_sort od)
                (hd 0 (np_sort od)) (last (np_sort od) 0)) v in
  np_min od <= y <= np_max od.
Proof.
  intros Hl Hod y.
  assert (Hos : np_sort od <> []).
  { intro E. pose proof (np_sort_length od) as L. rewrite E in L.
    destruct od; [congruence|discriminate]. }
  assert (Hb : hd 0 (np_sort od) <= y <= last (np_sort od) 0).
  { apply interp1d_call_bounds; auto.
    - rewrite rank_quantiles_length, !np_sort_length. exact Hl.
    - apply np_sort_sorted. }
  assert (Hhd : In (hd 0 (np_sort od)) od).
  { apply np_sort_in. destruct (np_sort od); [congruence|left; reflexivity]. }
  assert (Hlast : In (last (np_sort od) 0) od) by (apply np_sort_in, last_in, Hos).
  pose proof (np_min_le od _ Hhd). pose proof (np_max_ge od _ Hlast).
  lra.
Qed.

(** ** Claims on [QuantileMappingCorrection] *)

Lemma fit_transform_empirical_bounds (gf : list R -> exn + gamma_params)
    (gc : R -> gamma_params -> pyf) (gp : pyf -> gamma_params -> pyf)
    (md od : list R) (s : QMC) :
  method s = "empirical"%string -> length md = length od -> (1 <= length md)%nat ->
  exists s' out,
    fit gf md od s = (s', inr tt) /\ fitted s' = true /\
    transform gc gp s' md = inr out /\
    forall v, In v out -> exists x, v = Fin x /\ np_min od <= x <= np_max od.
Proof.
  intros Hm Hl H2.
  exists (empirical_fitted md od s).
  eexists. split; [apply fit_empirical; assumption|].
  split; [reflexivity|].
  split; [apply transform_empirical_fitted; exact Hm|].
  intros v Hv. apply in_map_iff in Hv as [x [<- _]].
  eexists; split; [reflexivity|].
  apply empirical_value_bounds; [exact Hl|].
  intros ->. simpl in Hl. lia.
Qed.

(** C3 (as amended). With the empirical method and two non-empty series
    of the same length, [fit] succeeds and every element of
    [transform(model_data)] is a finite value within
    [[min(obs_data), max(obs_data)]] (a single point included: [interp1d]
    accepts a one-point table). Two non-empty series of different lengths
    make the second [interp1d] raise [ValueError]: [fit] raises and leaves
    [fitted] as it was, so on a corrector never fitted [transform] raises
    "Must call fit() first". *)
Theorem C3_empirical_transform_clamped (gf : list R -> exn + gamma_params)
    (gc : R -> gamma_params -> pyf) (gp : pyf -> gamma_params -> pyf)
    (md od vals : list R) (s : QMC) :
  method s = "empirical"%string ->
  (length md = length od -> md <> [] ->
   exists s' out,
     fit gf md od s = (s', inr tt) /\ fitted s' = true /\
     transform gc gp s' md = inr out /\
     forall v, In v out -> exists x, v = Fin x /\ np_min od <= x <= np_max od) /\
  (md <> [] -> od <> [] -> length md <> length od ->
   exists s', fit gf md od s = (s', inl ValueError) /\ fitted s' = fitted s /\
     (fitted s = false -> transform gc gp s' vals = inl ValueError)).
Proof.
  intro Hm. split.
  - intros Hl Hmd. apply fit_transform_empirical_bounds; [exact Hm|exact Hl|].
    destruct md; [congruence|cbn; lia].
  - intros Hmd Hod Hl.
    destruct (fit_body_empirical_mismatch (fit_depth gf 1) gf md od s) as [s' [Hr [Hf _]]];
      [exact Hm|exact Hl|destruct md; [congruence|cbn; lia]|exact Hod|].
    exists s'. split; [exact Hr|]. split; [exact Hf|].
    intro H0. unfold transform. rewrite Hf, H0. reflexivity.
Qed.

Lemma C3_witness :
  (exists s' out,
     fit exp_gamma_fit [1] [2] (qmc_init "empirical") = (s', inr tt) /\ fitted s' = true /\
     transform exp_gamma_cdf exp_gamma_ppf s' [1] = inr out /\
     forall v, In v out -> exists x, v = Fin x /\ np_min [2] <= x <= np_max [2]) /\
  (exists s', fit exp_gamma_fit [1; 2; 3] [2; 3] (qmc_init "empirical") = (s', inl ValueError) /\
     fitted s' = fitted (qmc_init "empirical") /\
     (fitted (qmc_init "empirical") = false ->
      transform exp_gamma_cdf exp_gamma_ppf s' [1; 2; 3] = inl ValueError)).
Proof.
  split.
  - apply (proj1 (C3_empirical_transform_clamped exp_gamma_fit exp_gamma_cdf exp_gamma_ppf
                    [1] [2] [] (qmc_init "empirical") eq_refl)); [reflexivity|discriminate].
  - apply (proj2 (C3_empirical_transform_clamped exp_gamma_fit exp_gamma_cdf exp_gamma_ppf
                    [1; 2; 3] [2; 3] [1; 2; 3] (qmc_init "empirical") eq_refl));
      [discriminate|discriminate|discriminate].
Defined.

(** C3 (counterexample). With series of different lengths (both
    non-empty) the empirical [fit] raises [ValueError] from [interp1d],
    and the following [transform] raises "Must call fit() first". *)
Lemma C3_counterexample :
  let r := fit exp_gamma_fit [1; 2; 3] [1; 2] (qmc_init "empirical") in
  snd r = inl ValueError /\
  transform exp_gamma_cdf exp_gamma_ppf (fst r) [1; 2; 3] = inl ValueError.
Proof.
  destruct (fit_body_empirical_mismatch (fit_depth exp_gamma_fit 1) exp_gamma_fit [1; 2; 3] [1; 2]
              (qmc_init "empirical")) as [s' [Hr [Hf _]]];
    [reflexivity|simpl; lia|simpl; lia|discriminate|].
  cbv zeta.
  change (fit exp_gamma_fit [1; 2; 3] [1; 2] (qmc_init "empirical"))
    with (fit_body exp_gamma_fit (fit_depth exp_gamma_fit 1) [1; 2; 3] [1; 2]
            (qmc_init "empirical")).
  rewrite Hr. simpl snd; simpl fst.
  split; [reflexivity|].
  unfold transform. rewrite Hf. reflexivity.
Qed.

(** ** The parametric_gamma fallback *)

(** [fit_body] first stores the sorted series; what follows depends only on
    the state after these two assignments. *)
Lemma fit_body_after_data (gf : list R -> exn + gamma_params) (f : list R -> list R -> M unit)
    (md od : list R) (t1 t2 : QMC) :
  set_obs_data (np_sort od) (set_model_data (np_sort md) t1) =
  set_obs_data (np_sort od) (set_model_data (np_sort md) t2) ->
  fit_body gf f md od t1 = fit_body gf f md od t2.
Proof.
  intro H. unfold fit_body, bind at 1 2, modify at 1 2. cbv beta iota.
  unfold bind at 1. rewrite H. reflexivity.
Qed.

(** The empirical branch never calls [self.fit]. *)
Lemma fit_body_empirical_self (gf : list R -> exn + gamma_params)
    (f f' : list R -> list R -> M unit) (md od : list R) (t : QMC) :
  method t = "empirical"%string -> fit_body gf f md od t = fit_body gf f' md od t.
Proof.
  intro Hm. unfold fit_body, bind, modify, get. cbv beta iota.
  change (method (set_obs_data (np_sort od) (set_model_data (np_sort md) t))) with (method t).
  rewrite Hm, String.eqb_refl. reflexivity.
Qed.

Lemma set_data_method (m : string) (ms os : list R) (s : QMC) :
  set_obs_data os (set_model_data ms (set_method m (set_obs_data os (set_model_data ms s)))) =
  set_obs_data os (set_model_data ms (set_method m s)).
Proof. destruct s; reflexivity. Qed.

(** Fewer than three strictly positive values in one of the series. *)
Definition gamma_degenerate (md od : list R) : Prop :=
  (length (filter is_pos md) < 3)%nat \/ (length (filter is_pos od) < 3)%nat.

Lemma gamma_degenerate_test (md od : list R) :
  gamma_degenerate md od ->
  (Nat.ltb 2 (length (filter is_pos md)) && Nat.ltb 2 (length (filter is_pos od)))%bool = false.
Proof.
  unfold gamma_degenerate. intros [H|H].
  - destruct (Nat.ltb_spec 2 (length (filter is_pos md))); [lia|reflexivity].
  - destruct (Nat.ltb_spec 2 (length (filter is_pos md))); [|reflexivity].
    destruct (Nat.ltb_spec 2 (length (filter is_pos od))); [lia|reflexivity].
Qed.

(** One activation of the gamma branch on degenerate data: set
    [self.method = "empirical"], call [self.fit] and return. *)
Lemma fit_body_gamma_fallback (gf : list R -> exn + gamma_params) (f : list R -> list R -> M unit)
    (md od : list R) (s : QMC) :
  method s = "parametric_gamma"%string -> gamma_degenerate md od ->
  fit_body gf f md od s =
  f md od (set_method "empirical" (set_obs_data (np_sort od) (set_model_data (np_sort md) s))).
Proof.
  intros Hm Hd. unfold fit_body, bind, modify, get, ret. cbv beta iota.
  change (method (set_obs_data (np_sort od) (set_model_data (np_sort md) s))) with (method s).
  rewrite Hm. cbv zeta. cbn [String.eqb Ascii.eqb Bool.eqb].
  rewrite (gamma_degenerate_test md od Hd).
  destruct (f md od _) as [s' [e|[]]]; reflexivity.
Qed.

Lemma fit_gamma_fallback (gf : list R -> exn + gamma_params) (md od : list R) (s : QMC) :
  method s = "parametric_gamma"%string -> gamma_degenerate md od ->
  fit gf md od s = fit gf md od (set_method "empirical" s).
Proof.
  intros Hm Hd. unfold fit. cbn [fit_depth].
  rewrite fit_body_gamma_fallback by assumption.
  cbn [fit_depth].
  rewrite (fit_body_after_data gf _ md od _ (set_method "empirical" s))
    by apply set_data_method.
  apply fit_body_empirical_self. reflexivity.
Qed.

(** [self.fit] is only called on a state whose method is [empirical]. *)
Lemma fit_body_self_empirical (gf : list R -> exn + gamma_params)
    (f f' : list R -> list R -> M unit) (md od : list R) (s : QMC) :
  (forall t, method t = "empirical"%string -> f md od t = f' md od t) ->
  fit_body gf f md od s = fit_body gf f' md od s.
Proof.
  intro Hf. unfold fit_body, bind, modify, get, ret. cbv beta iota.
  change (method (set_obs_data (np_sort od) (set_model_data (np_sort md) s))) with (method s).
  destruct (String.eqb (method s) "empirical"); [reflexivity|].
  destruct (String.eqb (method s) "parametric_normal"); [reflexivity|].
  destruct (String.eqb (method s) "parametric_gamma"); [|reflexivity].
  cbv zeta. destruct (_ && _); [reflexivity|].
  rewrite Hf by reflexivity. reflexivity.
Qed.

Lemma fit_depth_irrelevant (gf : list R -> exn + gamma_params) (k : nat) (md od : list R) (s : QMC) :
  fit_depth gf (S (S k)) md od s = fit gf md od s.
Proof.
  unfold fit. cbn [fit_depth]. apply fit_body_self_empirical.
  intros t Ht. apply fit_body_empirical_self. exact Ht.
Qed.

(** C6 (as amended). With the parametric_gamma method and fewer than three
    strictly positive values in either series, [fit] does exactly what an
    empirical [fit] of the original, unfiltered series does. When the two
    series have the same non-zero length it succeeds, leaves the method
    [empirical], and the following [transform(model_data)] satisfies the
    clamping invariant; two non-empty series of different lengths make the
    fallback fit raise [ValueError], with the method already [empirical]
    and [fitted] left as it was. *)
Theorem C6_gamma_fallback_empirical (gf : list R -> exn + gamma_params)
    (gc : R -> gamma_params -> pyf) (gp : pyf -> gamma_params -> pyf)
    (md od : list R) (s : QMC) :
  method s = "parametric_gamma"%string -> gamma_degenerate md od ->
  fit gf md od s = fit gf md od (set_method "empirical" s) /\
  (length md = length od -> md <> [] ->
   exists s' out,
     fit gf md od s = (s', inr tt) /\ method s' = "empirical"%string /\
     fitted s' = true /\ transform gc gp s' md = inr out /\
     forall v, In v out -> exists x, v = Fin x /\ np_min od <= x <= np_max od) /\
  (md <> [] -> od <> [] -> length md <> length od ->
   exists s', fit gf md od s = (s', inl ValueError) /\ method s' = "empirical"%string /\
     fitted s' = fitted s).
Proof.
  intros Hm Hd. split; [apply fit_gamma_fallback; assumption|]. split.
  - intros Hl Hmd. rewrite fit_gamma_fallback by assumption.
    assert (H1 : (1 <= length md)%nat) by (destruct md; [congruence|cbn; lia]).
    destruct (fit_transform_empirical_bounds gf gc gp md od (set_method "empirical" s))
      as [s' [out [Hf [Hfit [Ht Hb]]]]]; [reflexivity|assumption|assumption|].
    exists s', out. repeat split; auto.
    rewrite fit_empirical in Hf by (reflexivity || assumption).
    injection Hf as <-. reflexivity.
  - intros Hmd Hod Hl. rewrite fit_gamma_fallback by assumption.
    destruct (fit_body_empirical_mismatch (fit_depth gf 1) gf md od (set_method "empirical" s))
      as [s' [Hr [Hf Hm']]];
      [reflexivity|exact Hl|destruct md; [congruence|cbn; lia]|exact Hod|].
    exists s'. split; [exact Hr|]. split; [exact Hm'|exact Hf].
Qed.

Lemma filter_length_le_self (f : R -> bool) (l : list R) :
  (length (filter f l) <= length l)%nat.
Proof. induction l as [|x t IH]; simpl; [lia|]. destruct (f x); simpl; lia. Qed.

Lemma C6_witness :
  (fit exp_gamma_fit [1] [2] (qmc_init "parametric_gamma") =
   fit exp_gamma_fit [1] [2] (set_method "empirical" (qmc_init "parametric_gamma")) /\
   exists s' out,
     fit exp_gamma_fit [1] [2] (qmc_init "parametric_gamma") = (s', inr tt) /\
     method s' = "empirical"%string /\ fitted s' = true /\
     transform exp_gamma_cdf exp_gamma_ppf s' [1] = inr out /\
     forall v, In v out -> exists x, v = Fin x /\ np_min [2] <= x <= np_max [2]) /\
  (exists s', fit exp_gamma_fit [1; 2; 3] [0; 5] (qmc_init "parametric_gamma") = (s', inl ValueError) /\
     method s' = "empirical"%string /\ fitted s' = false).
Proof.
  assert (Hd1 : gamma_degenerate [1] [2]).
  { left. pose proof (filter_length_le_self is_pos [1]). simpl in *. lia. }
  assert (Hd2 : gamma_degenerate [1; 2; 3] [0; 5]).
  { right. pose proof (filter_length_le_self is_pos [0; 5]). simpl in *. lia. }
  destruct (C6_gamma_fallback_empirical exp_gamma_fit exp_gamma_cdf exp_gamma_ppf [1] [2]
              (qmc_init "parametric_gamma") eq_refl Hd1) as [E [H _]].
  destruct (C6_gamma_fallback_empirical exp_gamma_fit exp_gamma_cdf exp_gamma_ppf [1; 2; 3] [0; 5]
              (qmc_init "parametric_gamma") eq_refl Hd2) as [_ [_ H']].
  split; [split; [exact E|apply H; [reflexivity|discriminate]]|].
  apply H'; discriminate.
Defined.

(** C6 (counterexample). The fallback is taken, but the empirical [fit]
    of two series of different lengths raises [ValueError], so the
    following [transform] raises instead of returning clamped values. *)
Lemma C6_counterexample :
  let r := fit exp_gamma_fit [1; 2; 3] [0; 0] (qmc_init "parametric_gamma") in
  snd r = inl ValueError /\ method (fst r) = "empirical"%string /\
  transform exp_gamma_cdf exp_gamma_ppf (fst r) [1; 2; 3] = inl ValueError.
Proof.
  cbv zeta.
  rewrite fit_gamma_fallback;
    [|reflexivity|right; pose proof (filter_length_le_self is_pos [0; 0]); simpl in *; lia].
  destruct (fit_body_empirical_mismatch (fit_depth exp_gamma_fit 1) exp_gamma_fit
              [1; 2; 3] [0; 0] (set_method "empirical" (qmc_init "parametric_gamma")))
    as [s' [Hr [Hf Hm]]];
    [reflexivity|simpl; lia|simpl; lia|discriminate|].
  change (fit exp_gamma_fit [1; 2; 3] [0; 0] (set_method "empirical" (qmc_init "parametric_gamma")))
    with (fit_body exp_gamma_fit (fit_depth exp_gamma_fit 1) [1; 2; 3] [0; 0]
            (set_method "empirical" (qmc_init "parametric_gamma"))).
  rewrite Hr. simpl snd; simpl fst.
  split; [reflexivity|]. split; [exact Hm|].
  unfold transform. rewrite Hf. reflexivity.
Qed.

(** An empirical [fit] keeps the method and never assigns gamma
    parameters, whether it succeeds or raises. *)
Lemma fit_empirical_frame (gf : list R -> exn + gamma_params) (md od : list R) (t : QMC) :
  method t = "empirical"%string ->
  method (fst (fit gf md od t)) = "empirical"%string /\
  model_gamma (fst (fit gf md od t)) = model_gamma t /\
  obs_gamma (fst (fit gf md od t)) = obs_gamma t.
Proof.
  intro Hm. unfold fit. cbn [fit_depth].
  unfold fit_body, bind, modify, get, lift, ret. cbv beta iota.
  change (method (set_obs_data (np_sort od) (set_model_data (np_sort md) t))) with (method t).
  rewrite Hm, String.eqb_refl. cbv beta iota zeta.
  repeat match goal with
         | |- context [match ?x with inl _ => _ | inr _ => _ end] => destruct x
         end; simpl; auto.
Qed.

(** A sequence of later [fit] calls on the same instance; a call that
    raises leaves the instance as the exception found it. *)
Definition fit_calls (gf : list R -> exn + gamma_params) (calls : list (list R * list R))
    (s : QMC) : QMC :=
  fold_left (fun t c => fst (fit gf (fst c) (snd c) t)) calls s.

(** C10. If [fit] with the parametric_gamma method takes the fallback, the
    method is overwritten to [empirical]: every later [fit] on the same
    instance runs the empirical branch (for equal-length series of at least
    two points it is exactly the empirical fit, whatever the number of
    positive values) and the method stays [empirical] after any sequence of
    later calls, which never assign gamma parameters. *)
Theorem C10_gamma_fallback_overwrites_method (gf : list R -> exn + gamma_params)
    (md od : list R) (s : QMC) :
  method s = "parametric_gamma"%string -> gamma_degenerate md od ->
  let s1 := fst (fit gf md od s) in
  method s1 = "empirical"%string /\
  (forall md2 od2, length md2 = length od2 -> (2 <= length md2)%nat ->
     fit gf md2 od2 s1 = (empirical_fitted md2 od2 s1, inr tt)) /\
  (forall calls, method (fit_calls gf calls s1) = "empirical"%string /\
                 model_gamma (fit_calls gf calls s1) = model_gamma s1 /\
                 obs_gamma (fit_calls gf calls s1) = obs_gamma s1).
Proof.
  intros Hm Hd s1.
  assert (H1 : method s1 = "empirical"%string).
  { unfold s1. rewrite fit_gamma_fallback by assumption.
    apply fit_empirical_frame. reflexivity. }
  split; [exact H1|]. split.
  - intros md2 od2 Hl H2. apply fit_empirical; [exact H1|exact Hl|lia].
  - intro calls. unfold fit_calls.
    generalize s1 H1. clear s1 H1. induction calls as [|c cs IH]; intros t Ht.
    + simpl. auto.
    + simpl. destruct (fit_empirical_frame gf (fst c) (snd c) t Ht) as [Hm' [Hg1 Hg2]].
      destruct (IH _ Hm') as [A [B C]]. rewrite <- Hg1, <- Hg2. auto.
Qed.

Lemma C10_witness :
  method (qmc_init "parametric_gamma") = "parametric_gamma"%string /\
  gamma_degenerate [1; 2; 3] [0; 5] /\
  (let s1 := fst (fit exp_gamma_fit [1; 2; 3] [0; 5] (qmc_init "parametric_gamma")) in
   method s1 = "empirical"%string /\
   (forall md2 od2, length md2 = length od2 -> (2 <= length md2)%nat ->
      fit exp_gamma_fit md2 od2 s1 = (empirical_fitted md2 od2 s1, inr tt)) /\
   (forall calls, method (fit_calls exp_gamma_fit calls s1) = "empirical"%string /\
                  model_gamma (fit_calls exp_gamma_fit calls s1) = model_gamma s1 /\
                  obs_gamma (fit_calls exp_gamma_fit calls s1) = obs_gamma s1)).
Proof.
  assert (Hd : gamma_degenerate [1; 2; 3] [0; 5]).
  { right. pose proof (filter_length_le_self is_pos [0; 5]). simpl in *. lia. }
  split; [reflexivity|]. split; [exact Hd|].
  apply C10_gamma_fallback_overwrites_method; [reflexivity|exact Hd].
Defined.

(** ** The other branches of [fit] *)

Definition normal_fitted (md od : list R) (s : QMC) : QMC :=
  set_fitted true
    (set_normal (np_mean md) (np_std md) (np_mean od) (np_std od)
      (set_obs_data (np_sort od) (set_model_data (np_sort md) s))).

Lemma fit_normal (gf : list R -> exn + gamma_params) (md od : list R) (s : QMC) :
  method s = "parametric_normal"%string -> fit gf md od s = (normal_fitted md od s, inr tt).
Proof.
  intro Hm. unfold fit. cbn [fit_depth].
  unfold fit_body, bind, modify, get, ret. cbv beta iota.
  change (method (set_obs_data (np_sort od) (set_model_data (np_sort md) s))) with (method s).
  rewrite Hm. cbn [String.eqb Ascii.eqb Bool.eqb]. reflexivity.
Qed.

Lemma fit_gamma_ok (gf : list R -> exn + gamma_params) (md od : list R) (s : QMC)
    (mg og : gamma_params) :
  method s = "parametric_gamma"%string ->
  (2 < length (filter is_pos md))%nat -> (2 < length (filter is_pos od))%nat ->
  gf (filter is_pos md) = inr mg -> gf (filter is_pos od) = inr og ->
  fit gf md od s =
  (set_fitted true (set_obs_gamma og (set_model_gamma mg
     (set_obs_data (np_sort od) (set_model_data (np_sort md) s)))), inr tt).
Proof.
  intros Hm H1 H2 Hg1 Hg2. unfold fit. cbn [fit_depth].
  unfold fit_body, bind, modify, get, ret, lift. cbv beta iota.
  change (method (set_obs_data (np_sort od) (set_model_data (np_sort md) s))) with (method s).
  rewrite Hm. cbn [String.eqb Ascii.eqb Bool.eqb]. cbv zeta.
  apply Nat.ltb_lt in H1, H2. rewrite H1, H2. cbv beta iota.
  rewrite Hg1. cbv beta iota. rewrite Hg2. reflexivity.
Qed.

(** An error of [gamma.fit] on either positive subset propagates out of
    [fit], with the corrector not marked fitted by this call. *)
Lemma fit_gamma_error (gf : list R -> exn + gamma_params) (md od : list R) (s : QMC)
    (e : exn) :
  method s = "parametric_gamma"%string ->
  (2 < length (filter is_pos md))%nat -> (2 < length (filter is_pos od))%nat ->
  (gf (filter is_pos md) = inl e \/
   (exists mg, gf (filter is_pos md) = inr mg) /\ gf (filter is_pos od) = inl e) ->
  exists s', fit gf md od s = (s', inl e) /\ fitted s' = fitted s.
Proof.
  intros Hm H1 H2 He. unfold fit. cbn [fit_depth].
  unfold fit_body, bind, modify, get, ret, lift. cbv beta iota.
  change (method (set_obs_data (np_sort od) (set_model_data (np_sort md) s))) with (method s).
  rewrite Hm. cbn [String.eqb Ascii.eqb Bool.eqb]. cbv zeta.
  apply Nat.ltb_lt in H1, H2. rewrite H1, H2. cbv beta iota.
  destruct He as [He|[[mg Hg1] He]].
  - rewrite He. eexists. split; reflexivity.
  - rewrite Hg1. cbv beta iota. rewrite He. eexists. split; reflexivity.
Qed.

Definition supported_method (m : string) : Prop :=
  m = "empirical"%string \/ m = "parametric_normal"%string \/ m = "parametric_gamma"%string.

Lemma fit_unsupported (gf : list R -> exn + gamma_params) (md od : list R) (s : QMC) :
  ~ supported_method (method s) ->
  fit gf md od s =
  (set_fitted true (set_obs_data (np_sort od) (set_model_data (np_sort md) s)), inr tt).
Proof.
  intro Hm. unfold supported_method in Hm.
  unfold fit. cbn [fit_depth].
  unfold fit_body, bind, modify, get, ret. cbv beta iota.
  change (method (set_obs_data (np_sort od) (set_model_data (np_sort md) s))) with (method s).
  destruct (String.eqb_spec (method s) "empirical") as [E|_]; [tauto|].
  destruct (String.eqb_spec (method s) "parametric_normal") as [E|_]; [tauto|].
  destruct (String.eqb_spec (method s) "parametric_gamma") as [E|_]; [tauto|].
  reflexivity.
Qed.

(** [gamma.fit] with [floc=0] on constant data raises: the statistic
    [s] is zero. *)
Lemma exp_gamma_fit_constant : exp_gamma_fit [1; 1; 1] = inl ValueError.
Proof.
  unfold exp_gamma_fit, gamma_fit_floc0.
  assert (Hb : Rleb 1 0 = false).
  { unfold Rleb. destruct (Rle_dec 1 0); [lra|reflexivity]. }
  cbn [existsb]. rewrite Hb. cbn [orb].
  destruct (Req_EM_T _ 0) as [_|Hne]; [reflexivity|].
  exfalso. apply Hne. cbn [sum_R map length INR]. rewrite ln_1.
  replace ((1 + (1 + (1 + 0))) / (1 + 1 + 1)) with 1 by field. rewrite ln_1. field.
Qed.

(** C5 (as amended). [fit] raises no configuration error: an unsupported
    method name is accepted ([fit] returns normally and marks the
    corrector fitted without fitting any transform, and [transform] then
    raises [UnboundLocalError]), and parametric_normal returns normally and
    marks it fitted for series of any length, including fewer than two
    points. The empirical method returns without error and marks the
    corrector fitted for two series of the same length [n >= 1];
    parametric_gamma with more than two positive values in each series
    does so when [gamma.fit] succeeds on both positive subsets, and
    otherwise propagates the error of [gamma.fit] (a [ValueError] on
    constant data) without marking the corrector fitted. *)
Theorem C5_fit_accepts_without_configuration_error (gf : list R -> exn + gamma_params)
    (gc : R -> gamma_params -> pyf) (gp : pyf -> gamma_params -> pyf)
    (md od vals : list R) (s : QMC) :
  (~ supported_method (method s) ->
     exists s', fit gf md od s = (s', inr tt) /\ fitted s' = true /\
                transform gc gp s' vals = inl UnboundLocalError) /\
  (method s = "parametric_normal"%string ->
     exists s', fit gf md od s = (s', inr tt) /\ fitted s' = true) /\
  (method s = "empirical"%string -> length md = length od -> (1 <= length md)%nat ->
     exists s', fit gf md od s = (s', inr tt) /\ fitted s' = true) /\
  (forall mg og, method s = "parametric_gamma"%string ->
     (2 < length (filter is_pos md))%nat -> (2 < length (filter is_pos od))%nat ->
     gf (filter is_pos md) = inr mg -> gf (filter is_pos od) = inr og ->
     exists s', fit gf md od s = (s', inr tt) /\ fitted s' = true) /\
  (forall e, method s = "parametric_gamma"%string ->
     (2 < length (filter is_pos md))%nat -> (2 < length (filter is_pos od))%nat ->
     (gf (filter is_pos md) = inl e \/
      (exists mg, gf (filter is_pos md) = inr mg) /\ gf (filter is_pos od) = inl e) ->
     exists s', fit gf md od s = (s', inl e) /\ fitted s' = fitted s).
Proof.
  split; [|split; [|split; [|split]]].
  - intro Hm. eexists. split; [apply fit_unsupported, Hm|]. split; [reflexivity|].
    unfold transform. cbn [fitted set_fitted negb].
    change (method (set_fitted true (set_obs_data (np_sort od) (set_model_data (np_sort md) s))))
      with (method s).
    unfold supported_method in Hm.
    destruct (String.eqb_spec (method s) "empirical") as [E|_]; [tauto|].
    destruct (String.eqb_spec (method s) "parametric_normal") as [E|_]; [tauto|].
    destruct (String.eqb_spec (method s) "parametric_gamma") as [E|_]; [tauto|].
    reflexivity.
  - intro Hm. eexists. split; [apply fit_normal, Hm|reflexivity].
  - intros Hm Hl H1. eexists. split; [apply fit_empirical; assumption|reflexivity].
  - intros mg og Hm H1 H2 Hg1 Hg2. eexists.
    split; [apply (fit_gamma_ok gf md od s mg og); assumption|reflexivity].
  - intros e Hm H1 H2 He. apply fit_gamma_error; assumption.
Qed.

(** C5 (counterexample). An unsupported method name and a single data
    point: [fit] returns normally and marks the corrector fitted; no
    error is raised. With parametric_gamma and three positive values in
    each series (a supported method with sufficient data), constant model
    data [1, 1, 1] makes [gamma.fit] raise [ValueError] out of [fit]. *)
Lemma C5_counterexample :
  (exists s', fit exp_gamma_fit [1] [2] (qmc_init "quantile") = (s', inr tt) /\
              fitted s' = true) /\
  (exists s', fit exp_gamma_fit [1; 1; 1] [1; 2; 3] (qmc_init "parametric_gamma") =
                (s', inl ValueError) /\ fitted s' = false).
Proof.
  assert (Hp : forall x, 0 < x -> is_pos x = true).
  { intros x Hx. unfold is_pos, Rltb. destruct (Rlt_dec 0 x); [reflexivity|lra]. }
  split.
  - eexists. split; [apply fit_unsupported|reflexivity].
    unfold supported_method. cbn [method qmc_init].
    intros [H|[H|H]]; discriminate H.
  - assert (E1 : filter is_pos [1; 1; 1] = [1; 1; 1]).
    { cbn [filter]. rewrite (Hp 1) by lra. reflexivity. }
    assert (E2 : filter is_pos [1; 2; 3] = [1; 2; 3]).
    { cbn [filter]. rewrite (Hp 1), (Hp 2), (Hp 3) by lra. reflexivity. }
    apply (fit_gamma_error exp_gamma_fit [1; 1; 1] [1; 2; 3] (qmc_init "parametric_gamma")
             ValueError eq_refl).
    + rewrite E1. cbn. lia.
    + rewrite E2. cbn. lia.
    + left. rewrite E1. exact exp_gamma_fit_constant.
Qed.

Lemma C5_witness :
  exists s', fit exp_gamma_fit [5] [7] (qmc_init "parametric_normal") = (s', inr tt) /\
             fitted s' = true.
Proof.
  apply (proj1 (proj2 (C5_fit_accepts_without_configuration_error exp_gamma_fit
           exp_gamma_cdf exp_gamma_ppf [5] [7] [] (qmc_init "parametric_normal")))).
  reflexivity.
Defined.

(** ** The parametric_normal transform *)

Lemma transform_normal_fitted (gc : R -> gamma_params -> pyf)
    (gp : pyf -> gamma_params -> pyf) (md od vals : list R) (s : QMC) :
  method s = "parametric_normal"%string ->
  transform gc gp (normal_fitted md od s) vals =
  inr (map (fun v => add (mul (div (sub (Fin v) (np_mean md)) (np_std md)) (np_std od))
                         (np_mean od)) vals).
Proof.
  intro Hm. unfold transform.
  change (fitted (normal_fitted md od s)) with true.
  change (method (normal_fitted md od s)) with (method s).
  rewrite Hm. cbn [String.eqb Ascii.eqb Bool.eqb negb]. reflexivity.
Qed.

Lemma np_mean_cons (x : R) (t : list R) :
  np_mean (x :: t) = Fin (sum_R (x :: t) / INR (length (x :: t))).
Proof. reflexivity. Qed.

Lemma np_mean_22 : np_mean [2; 2] = Fin 2.
Proof. rewrite np_mean_cons. f_equal. simpl. field. Qed.

Lemma np_mean_13 : np_mean [1; 3] = Fin 2.
Proof. rewrite np_mean_cons. f_equal. simpl. field. Qed.

Lemma np_std_22 : np_std [2; 2] = Fin 0.
Proof.
  unfold np_std, np_var. cbv zeta.
  replace (sum_R (map (fun x => (x - sum_R [2; 2] / INR (length [2; 2])) ^ 2) [2; 2])
             / INR (length [2; 2])) with 0 by (simpl; field).
  unfold PyFloat.sqrt. destruct (Rle_dec 0 0); [|lra]. rewrite sqrt_0. reflexivity.
Qed.

Lemma np_std_13 : np_std [1; 3] = Fin 1.
Proof.
  unfold np_std, np_var. cbv zeta.
  replace (sum_R (map (fun x => (x - sum_R [1; 3] / INR (length [1; 3])) ^ 2) [1; 3])
             / INR (length [1; 3])) with 1 by (simpl; field).
  unfold PyFloat.sqrt. destruct (Rle_dec 0 1); [|lra]. rewrite sqrt_1. reflexivity.
Qed.

Lemma div_zero_by_zero : div (Fin 0) (Fin 0) = NaN.
Proof. unfold div. destruct (Req_EM_T 0 0); [reflexivity|congruence]. Qed.

Lemma div_pos_by_zero (x : R) : 0 < x -> div (Fin x) (Fin 0) = PInf.
Proof.
  intro H. unfold div. destruct (Req_EM_T 0 0); [|congruence].
  destruct (Req_EM_T x 0); [lra|]. destruct (Rlt_dec 0 x); [reflexivity|lra].
Qed.

Lemma mul_pinf_pos (y : R) : 0 < y -> mul PInf (Fin y) = PInf.
Proof.
  intro H. unfold mul, inf_times. destruct (Req_EM_T y 0); [lra|].
  destruct (Rlt_dec 0 y); [reflexivity|lra].
Qed.

(** C4 (code bug). In parametric_normal, [transform] divides by
    [self.model_std] without a guard: for a constant model series the
    fitted standard deviation is [0], and [transform] returns [nan] at the
    model mean and [inf] above it, where the claim asks for finite values. *)
Theorem C4_normal_transform_divides_by_zero_std :
  let r := fit exp_gamma_fit [2; 2] [1; 3] (qmc_init "parametric_normal") in
  snd r = inr tt /\ model_std (fst r) = Some (Fin 0) /\
  transform exp_gamma_cdf exp_gamma_ppf (fst r) [2; 3] = inr [NaN; PInf].
Proof.
  cbv zeta. rewrite fit_normal by reflexivity. simpl fst; simpl snd.
  split; [reflexivity|]. split; [cbn [model_std set_fitted set_normal normal_fitted]; rewrite np_std_22; reflexivity|].
  rewrite transform_normal_fitted by reflexivity.
  rewrite np_mean_22, np_std_22, np_mean_13, np_std_13.
  cbn [map]. unfold sub, neg. cbn [add].
  replace (2 + - (2)) with 0 by ring. replace (3 + - (2)) with 1 by ring.
  rewrite div_zero_by_zero, div_pos_by_zero by lra.
  rewrite mul_pinf_pos by lra. reflexivity.
Qed.

Lemma mul_nan_l (y : pyf) : mul NaN y = NaN.
Proof. reflexivity. Qed.

Lemma mul_pinf_zero : mul PInf (Fin 0) = NaN.
Proof. unfold mul, inf_times. destruct (Req_EM_T 0 0); [reflexivity|congruence]. Qed.

(** C7 (code bug). With [model_data == obs_data], a constant series gives
    [model_std = obs_std = 0]: the unguarded division makes [transform]
    return [nan] (from [0/0] and from [inf * 0]) instead of the input
    values [2] and [3]. This is the missing guard of C4. *)
Theorem C7_normal_identity_fails_on_constant_data :
  let r := fit exp_gamma_fit [2; 2] [2; 2] (qmc_init "parametric_normal") in
  snd r = inr tt /\
  transform exp_gamma_cdf exp_gamma_ppf (fst r) [2; 3] = inr [NaN; NaN].
Proof.
  cbv zeta. rewrite fit_normal by reflexivity. simpl fst; simpl snd.
  split; [reflexivity|].
  rewrite transform_normal_fitted by reflexivity.
  rewrite np_mean_22, np_std_22.
  cbn [map]. unfold sub, neg. cbn [add].
  replace (2 + - (2)) with 0 by ring. replace (3 + - (2)) with 1 by ring.
  rewrite div_zero_by_zero, div_pos_by_zero by lra.
  rewrite mul_nan_l, mul_pinf_zero. reflexivity.
Qed.

(** Away from the degenerate case the parametric_normal correction fitted
    on identical series is the identity (in exact arithmetic). *)
Lemma normal_identity_nonconstant (gc : R -> gamma_params -> pyf)
    (gp : pyf -> gamma_params -> pyf) (gf : list R -> exn + gamma_params)
    (d vals : list R) (s : QMC) (sigma : R) :
  method s = "parametric_normal"%string -> d <> [] ->
  np_std d = Fin sigma -> sigma <> 0 ->
  transform gc gp (fst (fit gf d d s)) vals = inr (map Fin vals).
Proof.
  intros Hm Hd Hs Hsig. rewrite fit_normal by exact Hm. simpl fst.
  rewrite transform_normal_fitted by exact Hm. rewrite Hs.
  destruct d as [|x t]; [congruence|]. rewrite np_mean_cons.
  f_equal. apply map_ext. intro v.
  unfold sub, neg. cbn [add div mul].
  destruct (Req_EM_T sigma 0) as [E|_]; [contradiction|].
  cbn [add mul]. f_equal. field. split; [apply not_0_INR; discriminate|exact Hsig].
Qed.

(** ** [QuantileMappingCorrection.compute_statistics] *)

(** The returned dictionary; [variance_ratio.target] is the constant
    [1.0] and is left out. *)
Record correction_stats : Type := mkStats {
  bias_before : pyf;
  bias_after : pyf;
  bias_reduction_percent : pyf;
  rmse_before : pyf;
  rmse_after : pyf;
  rmse_reduction_percent : pyf;
  var_ratio_before : pyf;
  var_ratio_after : pyf;
  ks_before : R * R;
  ks_after : R * R
}.

Section Statistics.

(** [stats.ks_2samp(a, b)]: [(statistic, pvalue)]; it raises
    [ValueError] when a sample is empty, as scipy did before 1.12 (later
    versions return [nan] there instead). No result below depends on the
    empty case. *)
Variable ks_stat : list R -> list R -> R * R.

Definition ks_2samp (a b : list R) : exn + (R * R) :=
  match a, b with
  | [], _ | _, [] => inl ValueError
  | _, _ => inr (ks_stat a b)
  end.

Definition compute_statistics (model_data obs_data corrected_data : list R)
    : exn + correction_stats :=
  let bias_b := sub (np_mean model_data) (np_mean obs_data) in
  let bias_a := sub (np_mean corrected_data) (np_mean obs_data) in
  match bcast Rminus model_data obs_data, bcast Rminus corrected_data obs_data with
  | inl e, _ | inr _, inl e => inl e
  | inr d_b, inr d_a =>
      let rmse_b := PyFloat.sqrt (np_mean (map (fun x => x ^ 2) d_b)) in
      let rmse_a := PyFloat.sqrt (np_mean (map (fun x => x ^ 2) d_a)) in
      let vr_b := div (np_var model_data) (np_var obs_data) in
      let vr_a := div (np_var corrected_data) (np_var obs_data) in
      match ks_2samp model_data obs_data, ks_2samp corrected_data obs_data with
      | inl e, _ | inr _, inl e => inl e
      | inr k_b, inr k_a =>
          inr (mkStats bias_b bias_a
                 (if ne0 bias_b
                  then mul (sub (Fin 1) (div (PyFloat.abs bias_a) (PyFloat.abs bias_b))) (Fin 100)
                  else Fin 100)
                 rmse_b rmse_a
                 (if gt0 rmse_b
                  then mul (sub (Fin 1) (div rmse_a rmse_b)) (Fin 100)
                  else Fin 0)
                 vr_b vr_a k_b k_a)
      end
  end.

End Statistics.

(** The real quantities the claims are stated with. *)
Definition mean_R (l : list R) : R := sum_R l / INR (length l).

Definition rmse_R (a b : list R) : R :=
  R_sqrt.sqrt (mean_R (map (fun p => (fst p - snd p) ^ 2) (combine a b))).

Lemma sum_R_nonneg (l : list R) : Forall (fun x => 0 <= x) l -> 0 <= sum_R l.
Proof. induction 1; simpl; lra. Qed.

Lemma mean_R_sq_nonneg (l : list R) : 0 <= mean_R (map (fun x => x ^ 2) l).
Proof.
  unfold mean_R.
  assert (H : 0 <= sum_R (map (fun x => x ^ 2) l)).
  { apply sum_R_nonneg. apply Forall_map. apply Forall_forall. intros x _. nra. }
  destruct (length (map (fun x => x ^ 2) l)) as [|n].
  - simpl. unfold Rdiv. rewrite Rinv_0. lra.
  - apply Rmult_le_pos; [exact H|]. left. apply Rinv_0_lt_compat, lt_0_INR. lia.
Qed.

Lemma bcast_same_length (xs ys : list R) :
  length xs = length ys ->
  bcast Rminus xs ys = inr (map (fun p => fst p - snd p) (combine xs ys)).
Proof. intro H. unfold bcast. rewrite H, Nat.eqb_refl. reflexivity. Qed.

Lemma np_mean_nonempty (l : list R) : l <> [] -> np_mean l = Fin (mean_R l).
Proof. destruct l; [congruence|reflexivity]. Qed.

Lemma sqrt_mean_sq (xs ys : list R) :
  xs <> [] -> length xs = length ys ->
  PyFloat.sqrt (np_mean (map (fun x => x ^ 2) (map (fun p => fst p - snd p) (combine xs ys)))) =
  Fin (rmse_R xs ys).
Proof.
  intros Hne Hl.
  rewrite np_mean_nonempty.
  - unfold PyFloat.sqrt, rmse_R. rewrite map_map.
    destruct (Rle_dec 0 _) as [_|H]; [reflexivity|].
    exfalso. apply H. rewrite <- map_map with (g := fun x => x ^ 2). apply mean_R_sq_nonneg.
  - destruct xs as [|x xt]; [congruence|]. destruct ys as [|y yt]; [discriminate|].
    discriminate.
Qed.

(** C9. [compute_statistics] raises nothing on the numeric degeneracies
    (zero bias, zero RMSE, zero observation variance) of equal-length,
    non-empty series: it returns, its bias reduction percent is
    [(1 - |bias_after| / |bias_before|) * 100] when [bias_before] is
    nonzero and [100] when it is zero, and its RMSE reduction percent is
    [(1 - rmse_after / rmse_before) * 100] when [rmse_before > 0] and [0]
    otherwise. *)
Theorem C9_compute_statistics_reduction_percents (ks : list R -> list R -> R * R)
    (md od cd : list R) :
  md <> [] -> length md = length od -> length cd = length od ->
  exists r,
    compute_statistics ks md od cd = inr r /\
    bias_before r = Fin (mean_R md - mean_R od) /\
    bias_after r = Fin (mean_R cd - mean_R od) /\
    bias_reduction_percent r =
      (if Req_EM_T (mean_R md - mean_R od) 0 then Fin 100
       else Fin ((1 - Rabs (mean_R cd - mean_R od) / Rabs (mean_R md - mean_R od)) * 100)) /\
    rmse_before r = Fin (rmse_R md od) /\
    rmse_after r = Fin (rmse_R cd od) /\
    rmse_reduction_percent r =
      (if Rlt_dec 0 (rmse_R md od) then Fin ((1 - rmse_R cd od / rmse_R md od) * 100)
       else Fin 0).
Proof.
  intros Hmd Hl Hc.
  assert (Hod : od <> []) by (destruct od; [destruct md; [congruence|discriminate]|discriminate]).
  assert (Hcd : cd <> []) by (destruct cd; [destruct od; [congruence|discriminate]|discriminate]).
  unfold compute_statistics.
  rewrite (bcast_same_length md od Hl), (bcast_same_length cd od Hc).
  rewrite (sqrt_mean_sq md od Hmd Hl), (sqrt_mean_sq cd od Hcd Hc).
  rewrite (np_mean_nonempty md Hmd), (np_mean_nonempty od Hod), (np_mean_nonempty cd Hcd).
  assert (Hk : forall a b, a <> [] -> b <> [] -> ks_2samp ks a b = inr (ks a b)).
  { intros [|x a] [|y b] Ha Hb; [congruence|congruence|congruence|reflexivity]. }
  rewrite (Hk md od Hmd Hod), (Hk cd od Hcd Hod).
  cbv zeta. eexists. split; [reflexivity|].
  cbn [bias_before bias_after bias_reduction_percent rmse_before rmse_after
       rmse_reduction_percent].
  unfold sub, neg, ne0, gt0. cbn [add]. unfold Rminus.
  split; [reflexivity|]. split; [reflexivity|]. split.
  - destruct (Req_EM_T (mean_R md + - mean_R od) 0) as [E|E]; [reflexivity|].
    cbn [PyFloat.abs div].
    destruct (Req_EM_T (Rabs (mean_R md + - mean_R od)) 0) as [E'|_].
    + exfalso. exact (Rabs_no_R0 _ E E').
    + reflexivity.
  - split; [reflexivity|]. split; [reflexivity|].
    destruct (Rlt_dec 0 (rmse_R md od)) as [P|P]; [|reflexivity].
    cbn [div]. destruct (Req_EM_T (rmse_R md od) 0) as [E|_]; [lra|reflexivity].
Qed.

Lemma C9_witness :
  [2; 3] <> [] /\ length [2; 3] = length [1; 2] /\ length [1; 2] = length [1; 2] /\
  exists r,
    compute_statistics (fun _ _ => (0, 1)) [2; 3] [1; 2] [1; 2] = inr r /\
    bias_before r = Fin (mean_R [2; 3] - mean_R [1; 2]) /\
    bias_after r = Fin (mean_R [1; 2] - mean_R [1; 2]) /\
    bias_reduction_percent r =
      (if Req_EM_T (mean_R [2; 3] - mean_R [1; 2]) 0 then Fin 100
       else Fin ((1 - Rabs (mean_R [1; 2] - mean_R [1; 2]) / Rabs (mean_R [2; 3] - mean_R [1; 2]))
                 * 100)) /\
    rmse_before r = Fin (rmse_R [2; 3] [1; 2]) /\
    rmse_after r = Fin (rmse_R [1; 2] [1; 2]) /\
    rmse_reduction_percent r =
      (if Rlt_dec 0 (rmse_R [2; 3] [1; 2])
       then Fin ((1 - rmse_R [1; 2] [1; 2] / rmse_R [2; 3] [1; 2]) * 100)
       else Fin 0).
Proof.
  split; [discriminate|]. split; [reflexivity|]. split; [reflexivity|].
  apply C9_compute_statistics_reduction_percents; [discriminate|reflexivity|reflexivity].
Defined.

(** ** [BayesianModelAveraging] *)

(** A Python dict keyed by strings, in insertion order. *)
Definition dict (V : Type) : Type := list (string * V).

Fixpoint dict_get {V : Type} (k : string) (d : dict V) : option V :=
  match d with
  | [] => None
  | (k', v) :: t => if String.eqb k k' then Some v else dict_get k t
  end.

Definition dict_mem {V : Type} (k : string) (d : dict V) : bool :=
  match dict_get k d with Some _ => true | None => false end.

(** [d[k] = v]: an existing key keeps its position. *)
Fixpoint dict_set {V : Type} (k : string) (v : V) (d : dict V) : dict V :=
  match d with
  | [] => [(k, v)]
  | (k', v') :: t => if String.eqb k k' then (k, v) :: t else (k', v') :: dict_set k v t
  end.

Definition dict_get_default {V : Type} (k : string) (d : dict V) (dflt : V) : V :=
  match dict_get k d with Some v => v | None => dflt end.

Record BMA : Type := mkBMA {
  model_names : list string;
  n_models : nat;
  posterior_weights : option (dict pyf);
  model_variances : option (dict pyf)
}.

(** [BayesianModelAveraging(model_names)] *)
Definition bma_init (names : list string) : BMA :=
  mkBMA names (length names) None None.

(** [1e-10] *)
Definition var_floor : R := / 10 ^ 10.

(** [estimate_variance(predictions, observations)] *)
Definition estimate_variance (predictions observations : list R) : exn + pyf :=
  match bcast Rminus observations predictions with
  | inl e => inl e
  | inr residuals => inr (add (np_var residuals) (Fin var_floor))
  end.

(** [compute_log_likelihood(predictions, observations, variance)] *)
Definition compute_log_likelihood (predictions observations : list R) (variance : pyf)
    : exn + pyf :=
  let n := INR (length observations) in
  match bcast Rminus observations predictions with
  | inl e => inl e
  | inr residuals =>
      let rss := sum_R (map (fun r => r ^ 2) residuals) in
      inr (sub (mul (Fin (- n / 2)) (PyFloat.log (mul (Fin (2 * PI)) variance)))
               (div (Fin rss) (mul (Fin 2) variance)))
  end.

Definition is_nan (a : pyf) : bool := match a with NaN => true | _ => false end.
Definition is_pinf (a : pyf) : bool := match a with PInf => true | _ => false end.

Fixpoint finite_values (l : list pyf) : list R :=
  match l with
  | [] => []
  | Fin r :: t => r :: finite_values t
  | _ :: t => finite_values t
  end.

(** [scipy.special.logsumexp] of a 1-D list: [log(sum(exp(a)))] computed
    stably (exact arithmetic makes the max-shift invisible): [nan] if
    an entry is [nan], [inf] if one is [inf], [-inf] if all are [-inf];
    the maximum over an empty array raises [ValueError], as in scipy
    before 1.12 (later versions return [-inf]). No result below depends on
    the empty case. *)
Definition logsumexp (a : list pyf) : exn + pyf :=
  match a with
  | [] => inl ValueError
  | _ =>
      if existsb is_nan a then inr NaN
      else if existsb is_pinf a then inr PInf
      else match finite_values a with
           | [] => inr NInf
           | fs => inr (Fin (ln (sum_R (map Rtrigo_def.exp fs))))
           end
  end.

(** The loop over [self.model_names] computing variances and
    log-likelihoods of the models present in [models_predictions]. *)
Fixpoint likelihood_loop (names : list string) (mp : dict (list R)) (obs : list R)
    (variances log_liks : dict pyf) : exn + (dict pyf * dict pyf) :=
  match names with
  | [] => inr (variances, log_liks)
  | name :: rest =>
      match dict_get name mp with
      | None => likelihood_loop rest mp obs variances log_liks
      | Some preds =>
          match estimate_variance preds obs with
          | inl e => inl e
          | inr var =>
              match compute_log_likelihood preds obs var with
              | inl e => inl e
              | inr ll =>
                  likelihood_loop rest mp obs (dict_set name var variances)
                    (dict_set name ll log_liks)
              end
          end
      end
  end.

(** [{name: 1.0 / self.n_models for name in self.model_names}] *)
Definition uniform_prior (s : BMA) : dict R :=
  fold_left (fun d name => dict_set name (/ INR (n_models s)) d) (model_names s) [].

Definition log_posteriors (s : BMA) (prior : dict R) (log_liks : dict pyf) : dict pyf :=
  map (fun p =>
         (fst p, add (PyFloat.log (Fin (dict_get_default (fst p) prior (/ INR (n_models s)))))
                     (snd p)))
      log_liks.

(** [compute_weights(models_predictions, observations, prior_weights)]:
    stores [model_variances] once the loop is done and
    [posterior_weights] at the end. *)
Definition compute_weights (s : BMA) (mp : dict (list R)) (obs : list R)
    (prior_weights : option (dict R)) : BMA * (exn + dict pyf) :=
  let prior := match prior_weights with None => uniform_prior s | Some p => p end in
  match likelihood_loop (model_names s) mp obs [] [] with
  | inl e => (s, inl e)
  | inr (variances, log_liks) =>
      let s1 := mkBMA (model_names s) (n_models s) (posterior_weights s) (Some variances) in
      let lps := log_posteriors s prior log_liks in
      match logsumexp (map snd lps) with
      | inl e => (s1, inl e)
      | inr log_evidence =>
          let weights := map (fun p => (fst p, PyFloat.exp (sub (snd p) log_evidence))) lps in
          (mkBMA (model_names s) (n_models s) (Some weights) (Some variances), inr weights)
      end
  end.

(** ** Claims on [BayesianModelAveraging] *)

Lemma np_var_nonneg (l : list R) :
  l <> [] -> exists v, np_var l = Fin v /\ 0 <= v.
Proof.
  destruct l as [|x t]; [congruence|]. intros _.
  eexists. split; [reflexivity|].
  set (m := sum_R (x :: t) / INR (length (x :: t))).
  pose proof (mean_R_sq_nonneg (map (fun y => y - m) (x :: t))) as H.
  unfold mean_R in H. rewrite !length_map, map_map in H. exact H.
Qed.

Lemma var_floor_pos : 0 < var_floor.
Proof. unfold var_floor. apply Rinv_0_lt_compat. apply pow_lt. lra. Qed.

(** On finite series of the same non-empty length the variance estimate
    is a positive finite number. *)
Lemma estimate_variance_pos (preds obs : list R) :
  obs <> [] -> length preds = length obs ->
  exists v, estimate_variance preds obs = inr (Fin v) /\ 0 < v.
Proof.
  intros Hne Hl. unfold estimate_variance.
  rewrite bcast_same_length by (symmetry; exact Hl).
  destruct (np_var_nonneg (map (fun p => fst p - snd p) (combine obs preds))) as [v [Hv Hv0]].
  - destruct obs as [|o ot]; [congruence|]. destruct preds as [|p pt]; [discriminate|].
    discriminate.
  - rewrite Hv. cbn [add]. eexists; split; [reflexivity|]. pose proof var_floor_pos. lra.
Qed.

(** The Gaussian log-likelihood computed from a positive variance is
    [-n/2 * log(2*pi*var) - RSS/(2*var)]. *)
Lemma compute_log_likelihood_formula (preds obs : list R) (v : R) :
  length preds = length obs -> 0 < v ->
  compute_log_likelihood preds obs (Fin v) =
  inr (Fin (- INR (length obs) / 2 * ln (2 * PI * v)
            - sum_R (map (fun p => (fst p - snd p) ^ 2) (combine obs preds)) / (2 * v))).
Proof.
  intros Hl Hv. unfold compute_log_likelihood.
  rewrite bcast_same_length by (symmetry; exact Hl). cbv zeta.
  rewrite map_map. cbn [mul PyFloat.log].
  destruct (Rlt_dec 0 (2 * PI * v)) as [_|H]; [|exfalso; apply H; pose proof PI_RGT_0; nra].
  cbn [div]. destruct (Req_EM_T (2 * v) 0) as [E|_]; [lra|].
  unfold sub, neg. cbn [add mul]. reflexivity.
Qed.

Lemma likelihood_loop_one (name : string) (preds obs : list R) (var ll : pyf) :
  estimate_variance preds obs = inr var ->
  compute_log_likelihood preds obs var = inr ll ->
  likelihood_loop [name] [(name, preds)] obs [] [] = inr ([(name, var)], [(name, ll)]).
Proof.
  intros Hv Hll. cbn [likelihood_loop dict_get]. rewrite String.eqb_refl.
  rewrite Hv, Hll. reflexivity.
Qed.

Lemma compute_weights_variances (s : BMA) (mp : dict (list R)) (obs : list R)
    (prior : option (dict R)) (vars lls : dict pyf) :
  likelihood_loop (model_names s) mp obs [] [] = inr (vars, lls) ->
  model_variances (fst (compute_weights s mp obs prior)) = Some vars.
Proof.
  intro H. unfold compute_weights. rewrite H. cbv zeta.
  destruct (logsumexp _); reflexivity.
Qed.

Lemma estimate_variance_10_11 : estimate_variance [0; 0] [1; 1] = inr (Fin var_floor).
Proof.
  unfold estimate_variance. rewrite bcast_same_length by reflexivity.
  unfold np_var. cbn [combine map fst snd]. cbv zeta. cbn [add].
  f_equal. f_equal. simpl. field.
Qed.

(** C1 (code bug). [estimate_variance] returns [np.var(residuals) + 1e-10],
    the variance of the residuals around their own mean, not the mean of
    the squared residuals [sum((y_i - mu_i)^2)/n] that its docstring gives
    as the MLE. For predictions [[0, 0]] and observations [[1, 1]] the
    stored variance is [1e-10] whereas [mean((obs-pred)^2) + 1e-10] is
    [1 + 1e-10]. *)
Theorem C1_stored_variance_ignores_residual_mean :
  let s := fst (compute_weights (bma_init ["A"%string]) [("A"%string, [0; 0])] [1; 1] None) in
  model_variances s = Some [("A"%string, Fin var_floor)] /\
  mean_R (map (fun p => (fst p - snd p) ^ 2) (combine [1; 1] [0; 0])) + var_floor = 1 + var_floor /\
  var_floor <> 1 + var_floor.
Proof.
  cbv zeta. split; [|split].
  - eapply compute_weights_variances.
    apply likelihood_loop_one; [exact estimate_variance_10_11|].
    apply compute_log_likelihood_formula; [reflexivity|exact var_floor_pos].
  - unfold mean_R. simpl. field.
  - lra.
Qed.

Lemma dict_get_set {V : Type} (k k' : string) (v : V) (d : dict V) :
  dict_get k (dict_set k' v d) = if String.eqb k k' then Some v else dict_get k d.
Proof.
  induction d as [|[k'' v''] t IH]; cbn [dict_set dict_get]; [reflexivity|].
  destruct (String.eqb_spec k' k'') as [E|E].
  - subst k''. cbn [dict_get]. destruct (String.eqb k k'); reflexivity.
  - cbn [dict_get]. rewrite IH.
    destruct (String.eqb_spec k k'') as [E1|E1]; destruct (String.eqb_spec k k') as [E2|E2];
      try reflexivity; congruence.
Qed.

Lemma dict_set_in {V : Type} (k : string) (v : V) (d : dict V) (p : string * V) :
  In p (dict_set k v d) -> p = (k, v) \/ In p d.
Proof.
  induction d as [|[k' v'] t IH]; cbn [dict_set].
  - intros [H|[]]; left; congruence.
  - destruct (String.eqb k k').
    + intros [H|H]; [left; congruence|right; right; exact H].
    + intros [H|H]; [right; left; exact H|].
      destruct (IH H) as [H'|H']; [left; exact H'|right; right; exact H'].
Qed.

Lemma dict_get_in {V : Type} (k : string) (d : dict V) (v : V) :
  dict_get k d = Some v -> In (k, v) d.
Proof.
  induction d as [|[k' v'] t IH]; cbn [dict_get]; [discriminate|].
  destruct (String.eqb_spec k k') as [E|E].
  - intro H. inversion H. subst. left. reflexivity.
  - intro H. right. exact (IH H).
Qed.

Definition is_fin (a : pyf) : Prop := exists x, a = Fin x.

(** The likelihood loop succeeds on series of the right length; every
    log-likelihood is finite and belongs to a listed model present in the
    input, and every such model gets one. *)
Lemma likelihood_loop_ok (mp : dict (list R)) (obs : list R) :
  obs <> [] ->
  forall names vars lls,
  (forall name preds, In name names -> dict_get name mp = Some preds ->
     length preds = length obs) ->
  exists vars' lls',
    likelihood_loop names mp obs vars lls = inr (vars', lls') /\
    (forall p, In p lls' -> In p lls \/
       (In (fst p) names /\ dict_mem (fst p) mp = true /\ is_fin (snd p))) /\
    (forall k, (dict_get k lls <> None \/ (In k names /\ dict_mem k mp = true)) ->
       dict_get k lls' <> None).
Proof.
  intros Hobs names. induction names as [|name rest IH]; intros vars lls Hlen.
  - exists vars, lls. split; [reflexivity|]. split; [intros p Hp; left; exact Hp|].
    intros k [H|[[] _]]. exact H.
  - cbn [likelihood_loop].
    assert (Hrest : forall n p, In n rest -> dict_get n mp = Some p -> length p = length obs)
      by (intros n p Hn; apply Hlen; right; exact Hn).
    destruct (dict_get name mp) as [preds|] eqn:Hg.
    + pose proof (Hlen name preds (or_introl eq_refl) Hg) as Hl.
      destruct (estimate_variance_pos preds obs Hobs Hl) as [v [Hv Hv0]]. rewrite Hv.
      rewrite (compute_log_likelihood_formula preds obs v Hl Hv0).
      match goal with |- context [likelihood_loop rest mp obs ?a ?b] =>
        destruct (IH a b Hrest) as [vars' [lls' [Hloop [Hin Hkeys]]]] end.
      exists vars', lls'. split; [exact Hloop|]. split.
      * intros p Hp. destruct (Hin p Hp) as [H|[H1 [H2 H3]]].
        -- destruct (dict_set_in _ _ _ _ H) as [E|E].
           ++ subst p. right. cbn [fst snd]. split; [left; reflexivity|].
              split; [unfold dict_mem; rewrite Hg; reflexivity|eexists; reflexivity].
           ++ left. exact E.
        -- right. split; [right; exact H1|split; assumption].
      * intros k Hk. apply Hkeys. rewrite dict_get_set.
        destruct (String.eqb_spec k name) as [E|E]; [left; discriminate|].
        destruct Hk as [H|[[H|H] H']]; [left; exact H|congruence|right; split; assumption].
    + destruct (IH vars lls Hrest) as [vars' [lls' [Hloop [Hin Hkeys]]]].
      exists vars', lls'. split; [exact Hloop|]. split.
      * intros p Hp. destruct (Hin p Hp) as [H|[H1 H2]]; [left; exact H|].
        right. split; [right; exact H1|exact H2].
      * intros k Hk. apply Hkeys.
        destruct Hk as [H|[[H|H] H']]; [left; exact H| |right; split; assumption].
        subst k. unfold dict_mem in H'. rewrite Hg in H'. discriminate.
Qed.

(** A log-posterior is finite or [-inf]. *)
Definition lp_ok (a : pyf) : bool :=
  match a with Fin _ | NInf => true | _ => false end.

Lemma log_prior_add_ok (q x : R) :
  0 <= q -> lp_ok (add (PyFloat.log (Fin q)) (Fin x)) = true.
Proof.
  intro Hq. cbn [PyFloat.log]. destruct (Rlt_dec 0 q); [reflexivity|].
  destruct (Req_EM_T q 0); [reflexivity|lra].
Qed.

Lemma log_prior_add_pos (q x : R) :
  0 < q -> add (PyFloat.log (Fin q)) (Fin x) = Fin (ln q + x).
Proof.
  intro Hq. cbn [PyFloat.log]. destruct (Rlt_dec 0 q); [reflexivity|lra].
Qed.

Lemma sum_R_exp_pos (fs : list R) : fs <> [] -> 0 < sum_R (map Rtrigo_def.exp fs).
Proof.
  induction fs as [|x t IH]; [congruence|]. intros _. cbn [map sum_R].
  pose proof (exp_pos x).
  destruct t as [|y t']; [cbn; lra|].
  assert (0 < sum_R (map Rtrigo_def.exp (y :: t'))) by (apply IH; discriminate). lra.
Qed.

Lemma finite_values_in (l : list pyf) (x : R) : In (Fin x) l -> finite_values l <> [].
Proof.
  induction l as [|a t IH]; [intros []|].
  intros [H|H]; [subst a; cbn; discriminate|].
  destruct a; cbn [finite_values]; try discriminate; exact (IH H).
Qed.

Lemma logsumexp_ok (l : list pyf) (x : R) :
  forallb lp_ok l = true -> In (Fin x) l ->
  logsumexp l = inr (Fin (ln (sum_R (map Rtrigo_def.exp (finite_values l))))).
Proof.
  intros Hok Hin. unfold logsumexp.
  destruct l as [|a t]; [destruct Hin|].
  assert (Hn : existsb is_nan (a :: t) = false).
  { apply Bool.not_true_iff_false. intro H. apply existsb_exists in H as [b [Hb Hb']].
    rewrite forallb_forall in Hok. specialize (Hok b Hb). destruct b; discriminate. }
  assert (Hp : existsb is_pinf (a :: t) = false).
  { apply Bool.not_true_iff_false. intro H. apply existsb_exists in H as [b [Hb Hb']].
    rewrite forallb_forall in Hok. specialize (Hok b Hb). destruct b; discriminate. }
  rewrite Hn, Hp. pose proof (finite_values_in _ _ Hin) as Hf.
  destruct (finite_values (a :: t)); [congruence|reflexivity].
Qed.

Lemma sum_R_map_scale (fs : list R) (L : R) :
  sum_R (map (fun a => Rtrigo_def.exp (a + - L)) fs) =
  sum_R (map Rtrigo_def.exp fs) * Rtrigo_def.exp (- L).
Proof.
  induction fs as [|a t IH]; cbn [map sum_R]; [ring|]. rewrite IH, exp_plus. ring.
Qed.

Lemma fold_add_weights (l : list pyf) (L c : R) :
  forallb lp_ok l = true ->
  fold_left add (map (fun v => PyFloat.exp (sub v (Fin L))) l) (Fin c) =
  Fin (c + sum_R (map (fun a => Rtrigo_def.exp (a + - L)) (finite_values l))).
Proof.
  revert c. induction l as [|a t IH]; intros c Hok; cbn [map fold_left finite_values].
  - cbn. f_equal. ring.
  - cbn [forallb] in Hok. apply andb_prop in Hok as [Ha Ht].
    destruct a as [r| | |]; try discriminate; cbn [sub neg add PyFloat.exp];
      rewrite IH by exact Ht; f_equal; cbn [map sum_R]; ring.
Qed.

(** Normalising log-posteriors that are finite or [-inf], at least one
    finite, by their log-sum-exp gives weights summing to one. *)
Lemma normalised_sum_one (l : list pyf) (x : R) :
  forallb lp_ok l = true -> In (Fin x) l ->
  sum (map (fun v => PyFloat.exp (sub v (Fin (ln (sum_R (map Rtrigo_def.exp (finite_values l))))))) l)
  = Fin 1.
Proof.
  intros Hok Hin. unfold sum. rewrite fold_add_weights by exact Hok.
  rewrite sum_R_map_scale, exp_Ropp, exp_ln.
  - f_equal. field. apply Rgt_not_eq, sum_R_exp_pos, (finite_values_in _ _ Hin).
  - apply sum_R_exp_pos, (finite_values_in _ _ Hin).
Qed.

(** The prior [compute_weights] uses for a model: the given prior's
    entry, [1/n_models] if it has none. *)
Definition prior_of (s : BMA) (prior_weights : option (dict R)) (name : string) : R :=
  dict_get_default name
    (match prior_weights with None => uniform_prior s | Some p => p end)
    (/ INR (n_models s)).

(** C2 (corrected). On non-empty observations, with every prediction
    series of a listed model as long as the observations, priors that are
    non-negative on the included models and positive on at least one of
    them, [compute_weights] returns weights over the included models that
    sum to exactly one. *)
Theorem C2_weights_sum_to_one (s : BMA) (mp : dict (list R)) (obs : list R)
    (prior_weights : option (dict R)) :
  obs <> [] ->
  (forall name preds, In name (model_names s) -> dict_get name mp = Some preds ->
     length preds = length obs) ->
  (forall name, In name (model_names s) -> dict_mem name mp = true ->
     0 <= prior_of s prior_weights name) ->
  (exists name, In name (model_names s) /\ dict_mem name mp = true /\
     0 < prior_of s prior_weights name) ->
  exists weights,
    snd (compute_weights s mp obs prior_weights) = inr weights /\
    sum (map snd weights) = Fin 1.
Proof.
  intros Hobs Hlen Hnn [name0 [Hn0 [Hm0 Hp0]]].
  destruct (likelihood_loop_ok mp obs Hobs (model_names s) [] [] Hlen)
    as [vars [lls [Hloop [Hin Hkeys]]]].
  assert (Hfin : forall p, In p lls ->
            In (fst p) (model_names s) /\ dict_mem (fst p) mp = true /\ is_fin (snd p)).
  { intros p Hp. destruct (Hin p Hp) as [[]|H]. exact H. }
  unfold compute_weights. rewrite Hloop. cbv zeta.
  set (lps := log_posteriors s _ lls).
  assert (Hok : forallb lp_ok (map snd lps) = true).
  { apply forallb_forall. intros v Hv. apply in_map_iff in Hv as [q [Eq Hq]]. subst v.
    unfold lps, log_posteriors in Hq. apply in_map_iff in Hq as [p [Ep Hp]]. subst q.
    destruct (Hfin p Hp) as [H1 [H2 [x Hx]]]. cbn [snd]. rewrite Hx.
    apply log_prior_add_ok. exact (Hnn _ H1 H2). }
  destruct (dict_get name0 lls) as [ll|] eqn:Hll;
    [|exfalso; exact (Hkeys name0 (or_intror (conj Hn0 Hm0)) Hll)].
  apply dict_get_in in Hll.
  destruct (Hfin _ Hll) as [_ [_ [x Hx]]]. cbn [snd] in Hx. subst ll.
  assert (Hx0 : In (Fin (ln (prior_of s prior_weights name0) + x)) (map snd lps)).
  { apply in_map_iff. exists (name0, Fin (ln (prior_of s prior_weights name0) + x)).
    split; [reflexivity|]. unfold lps, log_posteriors. apply in_map_iff.
    exists (name0, Fin x). split; [|exact Hll]. cbn [fst snd].
    rewrite <- log_prior_add_pos by exact Hp0. reflexivity. }
  rewrite (logsumexp_ok _ _ Hok Hx0).
  eexists. split; [reflexivity|].
  rewrite map_map. cbn [snd].
  rewrite <- (map_map snd (fun v => PyFloat.exp (sub v _))).
  exact (normalised_sum_one _ _ Hok Hx0).
Qed.

Lemma C2_witness :
  exists weights,
    snd (compute_weights (bma_init ["A"%string; "B"%string])
           [("A"%string, [1; 2]); ("B"%string, [2; 2])] [1; 3] None) = inr weights /\
    sum (map snd weights) = Fin 1.
Proof.
  apply (C2_weights_sum_to_one (bma_init ["A"%string; "B"%string])
           [("A"%string, [1; 2]); ("B"%string, [2; 2])] [1; 3] None).
  - discriminate.
  - intros name preds [H|[H|[]]] Hg; subst name; cbn in Hg; inversion Hg; reflexivity.
  - intros name [H|[H|[]]] _; subst name; unfold prior_of; cbn;
      apply Rlt_le, Rinv_0_lt_compat; lra.
  - exists "A"%string. split; [left; reflexivity|]. split; [reflexivity|].
    unfold prior_of. cbn. apply Rinv_0_lt_compat; lra.
Defined.

(** C2 (counterexample). A prior that is a probability distribution but
    puts weight [0] on the only included model: its log-posterior is
    [-inf], so is the log-evidence, and its weight is [exp(-inf - -inf)],
    [nan]; the weights sum to [nan], not [1]. *)
Lemma C2_counterexample :
  snd (compute_weights (bma_init ["A"%string; "B"%string]) [("B"%string, [0])] [0]
         (Some [("A"%string, 1); ("B"%string, 0)])) = inr [("B"%string, NaN)] /\
  sum (map snd [("B"%string, NaN)]) = NaN.
Proof.
  split; [|reflexivity].
  destruct (estimate_variance_pos [0] [0]) as [v [Hv Hv0]]; [discriminate|reflexivity|].
  pose proof (compute_log_likelihood_formula [0] [0] v eq_refl Hv0) as Hll.
  unfold compute_weights. cbn [model_names bma_init likelihood_loop dict_get].
  cbn [String.eqb Ascii.eqb Bool.eqb].
  rewrite Hv, Hll. cbn [likelihood_loop dict_set].
  unfold log_posteriors, dict_get_default. cbn [map fst snd dict_get].
  cbn [String.eqb Ascii.eqb Bool.eqb]. cbn [PyFloat.log].
  destruct (Rlt_dec 0 0) as [H|_]; [lra|].
  destruct (Req_EM_T 0 0) as [_|H]; [|congruence].
  reflexivity.
Qed.

(** *** [predict] *)

(** Element-wise [+] of two arrays of the same shape. *)
Definition vadd (a b : list pyf) : list pyf :=
  map (fun p => add (fst p) (snd p)) (combine a b).

(** [x ** 2] on a float. *)
Definition sq (a : pyf) : pyf := mul a a.

(** The loop [for i, name in enumerate(models_predictions)] accumulating
    [within_var] and [between_var]; [all_preds[i]] raises [IndexError]
    past the last stacked row. *)
Fixpoint variance_loop (s : BMA) (pw : dict pyf) (all_preds : list (list R))
    (bma_mean : list pyf) (names : list string) (i : nat)
    (within_var between_var : list pyf) : exn + (list pyf * list pyf) :=
  match names with
  | [] => inr (within_var, between_var)
  | name :: rest =>
      if dict_mem name pw then
        let w := dict_get_default name pw NaN in
        match model_variances s with
        | None => inl AttributeError
        | Some mv =>
            let var := dict_get_default name mv (Fin 1) in
            let within_var' := map (fun a => add a (mul w var)) within_var in
            match nth_error all_preds i with
            | None => inl IndexError
            | Some row =>
                let between_var' :=
                  vadd between_var
                    (map (fun p => mul w (sq (sub (Fin (fst p)) (snd p))))
                         (combine row bma_mean)) in
                variance_loop s pw all_preds bma_mean rest (S i) within_var' between_var'
            end
        end
      else variance_loop s pw all_preds bma_mean rest (S i) within_var between_var
  end.

(** [bma_mean], [within_var] and [between_var] of [predict]. Stacking
    ragged rows raises [ValueError]; [all_preds.shape[1]] of an empty
    stack raises [IndexError]. *)
Definition predict_moments (s : BMA) (models_predictions : dict (list R))
    : exn + (list pyf * list pyf * list pyf) :=
  match posterior_weights s with
  | None => inl ValueError
  | Some pw =>
      let sel := filter (fun p => dict_mem (fst p) pw) models_predictions in
      let all_preds := map snd sel in
      let weights := map (fun p => dict_get_default (fst p) pw NaN) sel in
      match all_preds with
      | [] => inl IndexError
      | r0 :: _ =>
          if forallb (fun r => Nat.eqb (length r) (length r0)) all_preds then
            let m := length r0 in
            let bma_mean :=
              fold_left (fun acc p => vadd acc (map (fun x => mul (fst p) (Fin x)) (snd p)))
                        (combine weights all_preds) (repeat (Fin 0) m) in
            match variance_loop s pw all_preds bma_mean (map fst models_predictions) 0
                    (repeat (Fin 0) m) (repeat (Fin 0) m) with
            | inl e => inl e
            | inr (within_var, between_var) => inr (bma_mean, within_var, between_var)
            end
          else inl ValueError
      end
  end.

Record bma_prediction : Type := mkPrediction {
  pred_mean : list pyf;
  pred_std : list pyf;
  lower_95 : list pyf;
  upper_95 : list pyf
}.

(** [1.96] *)
Definition z95 : R := 196 / 100.

(** [predict(models_predictions)] *)
Definition predict (s : BMA) (models_predictions : dict (list R)) : exn + bma_prediction :=
  match predict_moments s models_predictions with
  | inl e => inl e
  | inr (bma_mean, within_var, between_var) =>
      let bma_var := vadd within_var between_var in
      let bma_std := map PyFloat.sqrt bma_var in
      inr (mkPrediction bma_mean bma_std
             (map (fun p => sub (fst p) (mul (Fin z95) (snd p))) (combine bma_mean bma_std))
             (map (fun p => add (fst p) (mul (Fin z95) (snd p))) (combine bma_mean bma_std)))
  end.

(** Whenever [predict] returns, its [std] is the square root of
    [within_var + between_var]. *)
Lemma predict_std_decomposition (s : BMA) (mp : dict (list R)) (r : bma_prediction) :
  predict s mp = inr r ->
  exists bma_mean within_var between_var,
    predict_moments s mp = inr (bma_mean, within_var, between_var) /\
    pred_std r = map PyFloat.sqrt (vadd within_var between_var).
Proof.
  unfold predict. destruct (predict_moments s mp) as [e|[[m w] b]]; [discriminate|].
  intro H. inversion H. subst r. exists m, w, b. split; reflexivity.
Qed.

(** C8 (code bug). [predict] indexes the stacked rows [all_preds] by the
    position [i] of a model in [models_predictions], counting the models
    that have no posterior weight, although only weighted models were
    stacked. When an unweighted model precedes a weighted one, [predict]
    raises [IndexError] instead of returning a total variance equal to
    [within_var + between_var] over the weighted models: here with one
    weighted model [A] listed after an unweighted [X]. The same input in
    the other order returns a prediction. *)
Theorem C8_predict_misindexes_rows (s : BMA) (pw mv : dict pyf) :
  posterior_weights s = Some pw -> model_variances s = Some mv ->
  dict_mem "A" pw = true -> dict_mem "X" pw = false ->
  predict s [("X"%string, [1]); ("A"%string, [2])] = inl IndexError /\
  exists r, predict s [("A"%string, [2]); ("X"%string, [1])] = inr r.
Proof.
  intros Hpw Hmv HA HX. unfold predict, predict_moments. rewrite Hpw.
  cbn [filter fst]. rewrite HA, HX. cbn [map snd fst forallb length Nat.eqb andb].
  cbn [variance_loop]. rewrite HX, HA, Hmv. cbn [nth_error]. split; [reflexivity|].
  eexists. reflexivity.
Qed.

Lemma C8_witness :
  predict (mkBMA ["A"%string] 1 (Some [("A"%string, Fin 1)]) (Some [("A"%string, Fin (/ 2))]))
    [("X"%string, [1]); ("A"%string, [2])] = inl IndexError /\
  exists r, predict (mkBMA ["A"%string] 1 (Some [("A"%string, Fin 1)])
                       (Some [("A"%string, Fin (/ 2))]))
              [("A"%string, [2]); ("X"%string, [1])] = inr r.
Proof.
  apply (C8_predict_misindexes_rows
           (mkBMA ["A"%string] 1 (Some [("A"%string, Fin 1)]) (Some [("A"%string, Fin (/ 2))]))
           [("A"%string, Fin 1)] [("A"%string, Fin (/ 2))]); reflexivity.
Defined.

(** * Further properties of the two components *)

(** ** The empirical [fit] depends on the two series only as multisets *)

Lemma sorted_perm_eq (a b : list R) :
  Sorted Rle a -> Sorted Rle b -> Permutation a b -> a = b.
Proof.
  revert b. induction a as [|x a IH]; intros b Ha Hb Hp.
  - symmetry. apply Permutation_nil. exact Hp.
  - destruct b as [|y b]; [apply Permutation_sym, Permutation_nil in Hp; discriminate|].
    apply Sorted_StronglySorted in Ha; [|exact Rle_Transitive].
    apply Sorted_StronglySorted in Hb; [|exact Rle_Transitive].
    inversion Ha as [|? ? Ha' Hxa]; inversion Hb as [|? ? Hb' Hyb]; subst.
    assert (Hxy : x = y).
    { assert (Hy : In y (x :: a)) by (apply (Permutation_in _ (Permutation_sym Hp)); left; reflexivity).
      assert (Hx : In x (y :: b)) by (apply (Permutation_in _ Hp); left; reflexivity).
      destruct Hy as [Hy|Hy]; [congruence|]. destruct Hx as [Hx|Hx]; [congruence|].
      rewrite Forall_forall in Hxa, Hyb. pose proof (Hxa y Hy). pose proof (Hyb x Hx). lra. }
    subst y. f_equal. apply IH.
    + apply StronglySorted_Sorted. exact Ha'.
    + apply StronglySorted_Sorted. exact Hb'.
    + exact (Permutation_cons_inv Hp).
Qed.

Lemma np_sort_perm_eq (l l' : list R) : Permutation l l' -> np_sort l = np_sort l'.
Proof.
  intro H. apply sorted_perm_eq; try apply np_sort_sorted.
  eapply Permutation_trans; [apply Permutation_sym, np_sort_perm|].
  eapply Permutation_trans; [exact H|apply np_sort_perm].
Qed.

(** The empirical [fit] depends on [model_data] and [obs_data] only up to
    reordering: it reads them only through [np.sort], so the whole
    resulting state and the outcome are the same for any permutation of
    either series (values as reals: a sort of [0.0] and [-0.0] is not
    distinguished). *)
Theorem fit_permutation_invariant (gf : list R -> exn + gamma_params)
    (md md' od od' : list R) (s : QMC) :
  method s = "empirical"%string ->
  Permutation md md' -> Permutation od od' ->
  fit gf md od s = fit gf md' od' s.
Proof.
  intros Hm Hmd Hod. unfold fit. cbn [fit_depth].
  unfold fit_body, bind, modify, get, ret, lift. cbv beta iota.
  change (method (set_obs_data (np_sort od) (set_model_data (np_sort md) s))) with (method s).
  change (method (set_obs_data (np_sort od') (set_model_data (np_sort md') s))) with (method s).
  rewrite Hm, String.eqb_refl. cbv beta iota zeta.
  rewrite (np_sort_perm_eq _ _ Hmd), (np_sort_perm_eq _ _ Hod). reflexivity.
Qed.

Lemma fit_permutation_invariant_witness :
  fit exp_gamma_fit [3; 1; 2] [5; 4; 6] (qmc_init "empirical") =
  fit exp_gamma_fit [1; 2; 3] [4; 5; 6] (qmc_init "empirical").
Proof.
  apply fit_permutation_invariant.
  - reflexivity.
  - apply (Permutation_trans (l' := [1; 3; 2])); [apply perm_swap|].
    apply perm_skip, perm_swap.
  - apply perm_swap.
Defined.

(** ** The empirical correction preserves order *)

Lemma interp_scan_mono (xp fp : list R) (x y : R) :
  Sorted Rle xp -> Sorted Rle fp -> length xp = length fp -> xp <> [] ->
  hd 0 xp <= x -> x <= y -> interp_scan x xp fp <= interp_scan y xp fp.
Proof.
  revert fp x y. induction xp as [|x0 xt IH]; intros fp x y Hsx Hsf Hlen Hne Hx Hxy;
    [congruence|].
  destruct fp as [|y0 yt]; [discriminate|].
  destruct xt as [|x1 xt'].
  - destruct yt; [simpl; lra|discriminate].
  - destruct yt as [|y1 yt']; [discriminate|].
    rewrite !interp_scan_cons2. simpl hd in Hx.
    inversion Hsx as [|? ? Hsx' Hhx]; subst. inversion Hhx as [|? ? Hx01]; subst.
    inversion Hsf as [|? ? Hsf' Hhf]; subst. inversion Hhf as [|? ? Hy01]; subst.
    destruct (Rle_dec x1 x) as [H1|H1].
    + destruct (Rle_dec x1 y) as [_|H2]; [|lra].
      apply IH; [assumption|assumption|simpl in *; lia|discriminate|simpl; lra|lra].
    + assert (Hlin : forall z, x0 <= z < x1 ->
                (if Req_EM_T x0 z then y0 else (y1 - y0) / (x1 - x0) * (z - x0) + y0)
                = (y1 - y0) / (x1 - x0) * (z - x0) + y0).
      { intros z Hz. destruct (Req_EM_T x0 z) as [E|_]; [subst z; ring|reflexivity]. }
      assert (Hk : 0 <= (y1 - y0) / (x1 - x0)).
      { apply Rmult_le_pos; [lra|]. left. apply Rinv_0_lt_compat. lra. }
      rewrite (Hlin x) by lra.
      destruct (Rle_dec x1 y) as [H2|H2].
      * destruct (interp_scan_bounds y (x1 :: xt') (y1 :: yt')) as [Hb _];
          auto; [discriminate|]. simpl hd in Hb.
        assert (Hseg : (y1 - y0) / (x1 - x0) * (x - x0) <= y1 - y0).
        { replace (y1 - y0) with ((y1 - y0) / (x1 - x0) * (x1 - x0)) at 2 by (field; lra).
          apply Rmult_le_compat_l; lra. }
        lra.
      * rewrite (Hlin y) by lra. apply Rplus_le_compat_r, Rmult_le_compat_l; lra.
Qed.

Lemma interp1d_call_mono (xs ys : list R) (lo hi x y : R) :
  Sorted Rle xs -> Sorted Rle ys -> length xs = length ys -> xs <> [] ->
  lo <= hd 0 ys -> last ys 0 <= hi -> x <= y ->
  interp1d_call (mkInterp1d xs ys lo hi) x <= interp1d_call (mkInterp1d xs ys lo hi) y.
Proof.
  intros Hsx Hsy Hlen Hne Hlo Hhi Hxy.
  assert (Hyne : ys <> []) by (destruct xs, ys; simpl in *; congruence).
  assert (Hys : hd 0 ys <= last ys 0)
    by (destruct ys as [|y0 yt]; [congruence|apply sorted_hd_le_last; exact Hsy]).
  unfold interp1d_call; cbn [ix iy fill_below fill_above].
  destruct (Rlt_dec x (hd 0 xs)) as [Hx1|Hx1].
  - destruct (Rlt_dec y (hd 0 xs)); [lra|].
    destruct (Rlt_dec (last xs 0) y); [lra|].
    pose proof (interp_scan_bounds y xs ys Hlen Hyne Hsy ltac:(lra)). lra.
  - destruct (Rlt_dec (last xs 0) x) as [Hx2|Hx2].
    + destruct (Rlt_dec y (hd 0 xs)); [lra|].
      destruct (Rlt_dec (last xs 0) y); [lra|lra].
    + destruct (Rlt_dec y (hd 0 xs)); [lra|].
      destruct (Rlt_dec (last xs 0) y).
      * pose proof (interp_scan_bounds x xs ys Hlen Hyne Hsy ltac:(lra)). lra.
      * apply interp_scan_mono; auto. lra.
Qed.

Lemma sorted_map_seq (f : nat -> R) (a k : nat) :
  (forall i, f i <= f (S i)) -> Sorted Rle (map f (seq a k)).
Proof.
  intro Hf. revert a. induction k as [|k IH]; intro a; simpl; [constructor|].
  constructor; [apply IH|]. destruct k; simpl; constructor. apply Hf.
Qed.

Lemma rank_quantiles_sorted (n : nat) : Sorted Rle (rank_quantiles n).
Proof.
  apply sorted_map_seq. intro i. rewrite S_INR. unfold Rdiv.
  apply Rmult_le_compat_r; [|lra].
  destruct n as [|n]; [simpl; rewrite Rinv_0; lra|].
  left. apply Rinv_0_lt_compat, lt_0_INR. lia.
Qed.

Lemma rank_quantiles_in (n : nat) (q : R) : In q (rank_quantiles n) -> 0 <= q <= 1.
Proof.
  unfold rank_quantiles. intro H. apply in_map_iff in H as [i [<- Hi]].
  apply in_seq in Hi. destruct n as [|n]; [lia|].
  assert (Hn : 0 < INR (S n)) by (apply lt_0_INR; lia).
  assert (1 <= INR i) by (apply (le_INR 1); lia).
  assert (INR i <= INR (S n)) by (apply le_INR; lia).
  split; unfold Rdiv.
  - apply Rmult_le_pos; [lra|left; apply Rinv_0_lt_compat; exact Hn].
  - apply (Rmult_le_reg_r (INR (S n))); [exact Hn|].
    rewrite Rmult_assoc, Rinv_l by lra. lra.
Qed.

Lemma sorted_map_mono (g : R -> R) (l : list R) :
  (forall x y, x <= y -> g x <= g y) -> Sorted Rle l -> Sorted Rle (map g l).
Proof.
  intros Hg. induction 1 as [|a l Hl IH Hhd]; simpl; constructor; [exact IH|].
  destruct Hhd; simpl; constructor. apply Hg. assumption.
Qed.

(** The empirical correction, as [transform] computes it after a fit. *)
Definition empirical_map (md od : list R) (v : R) : R :=
  interp1d_call
    (mkInterp1d (rank_quantiles (length (np_sort md))) (np_sort od)
       (hd 0 (np_sort od)) (last (np_sort od) 0))
    (interp1d_call (mkInterp1d (np_sort md) (rank_quantiles (length (np_sort md))) 0 1) v).

Lemma empirical_map_mono (md od : list R) (x y : R) :
  length md = length od -> (1 <= length md)%nat -> x <= y ->
  empirical_map md od x <= empirical_map md od y.
Proof.
  intros Hl H1 Hxy. unfold empirical_map.
  assert (Hne : np_sort md <> []) by (intro E; pose proof (np_sort_length md) as L;
    rewrite E in L; simpl in L; lia).
  assert (Hq : rank_quantiles (length (np_sort md)) <> [])
    by (intro E; pose proof (rank_quantiles_length (length (np_sort md))) as L;
        rewrite E, np_sort_length in L; simpl in L; lia).
  assert (Hqin : forall q, In q (rank_quantiles (length (np_sort md))) -> 0 <= q <= 1)
    by apply rank_quantiles_in.
  apply interp1d_call_mono.
  - apply rank_quantiles_sorted.
  - apply np_sort_sorted.
  - rewrite rank_quantiles_length, !np_sort_length. exact Hl.
  - exact Hq.
  - lra.
  - apply Rle_refl.
  - apply interp1d_call_mono; auto.
    + apply np_sort_sorted.
    + apply rank_quantiles_sorted.
    + rewrite rank_quantiles_length. reflexivity.
    + destruct (rank_quantiles (length (np_sort md))) as [|q0 qt] eqn:E; [congruence|].
      simpl. apply (Hqin q0). left. reflexivity.
    + apply Hqin, last_in, Hq.
Qed.

(** After a successful empirical fit, [transform] is order-preserving:
    a sorted input gives finite corrected values in the same order. *)
Theorem empirical_transform_monotone (gf : list R -> exn + gamma_params)
    (gc : R -> gamma_params -> pyf) (gp : pyf -> gamma_params -> pyf)
    (md od : list R) (s : QMC) :
  method s = "empirical"%string -> length md = length od -> (2 <= length md)%nat ->
  exists s', fit gf md od s = (s', inr tt) /\
    forall vs, Sorted Rle vs ->
      exists rs, transform gc gp s' vs = inr (map Fin rs) /\ Sorted Rle rs.
Proof.
  intros Hm Hl H2. exists (empirical_fitted md od s).
  split; [apply fit_empirical; [exact Hm|exact Hl|lia]|].
  intros vs Hs. exists (map (empirical_map md od) vs). split.
  - rewrite transform_empirical_fitted by exact Hm. rewrite map_map. reflexivity.
  - apply sorted_map_mono; [|exact Hs].
    intros x y Hxy. apply empirical_map_mono; auto; lia.
Qed.

Lemma empirical_transform_monotone_witness :
  exists s', fit exp_gamma_fit [3; 1; 2] [10; 30; 20] (qmc_init "empirical") = (s', inr tt) /\
    forall vs, Sorted Rle vs ->
      exists rs, transform exp_gamma_cdf exp_gamma_ppf s' vs = inr (map Fin rs) /\
                 Sorted Rle rs.
Proof. apply empirical_transform_monotone; simpl; [reflexivity|reflexivity|lia]. Defined.

(** ** On its own training values the empirical correction is the
    rank-to-rank map *)

Lemma interp_scan_node (xp fp : list R) (k : nat) :
  Sorted Rlt xp -> length xp = length fp -> (k < length xp)%nat ->
  interp_scan (nth k xp 0) xp fp = nth k fp 0.
Proof.
  revert fp k. induction xp as [|x0 xt IH]; intros fp k Hs Hl Hk; [simpl in Hk; lia|].
  destruct fp as [|y0 yt]; [discriminate|].
  destruct xt as [|x1 xt'].
  - destruct yt; [|discriminate]. destruct k; [reflexivity|simpl in Hk; lia].
  - destruct yt as [|y1 yt']; [discriminate|].
    inversion Hs as [|? ? Hs' Hh]; subst. inversion Hh as [|? ? H01]; subst.
    rewrite interp_scan_cons2. destruct k as [|k].
    + simpl nth. destruct (Rle_dec x1 x0); [lra|].
      destruct (Req_EM_T x0 x0); [reflexivity|congruence].
    + change (nth (S k) (x0 :: x1 :: xt') 0) with (nth k (x1 :: xt') 0).
      change (nth (S k) (y0 :: y1 :: yt') 0) with (nth k (y1 :: yt') 0).
      assert (Hge : x1 <= nth k (x1 :: xt') 0).
      { apply Sorted_StronglySorted in Hs'; [|intros a b c; apply Rlt_trans].
        inversion Hs' as [|? ? _ Hall]; subst.
        destruct k as [|k]; [simpl; lra|]. simpl nth.
        rewrite Forall_forall in Hall. left. apply Hall, nth_In. simpl in Hk. lia. }
      destruct (Rle_dec x1 (nth k (x1 :: xt') 0)) as [_|C]; [|contradiction].
      apply IH; [exact Hs'|simpl in *; lia|simpl in *; lia].
Qed.

Lemma sorted_le_last (l : list R) (z : R) : Sorted Rle l -> In z l -> z <= last l 0.
Proof.
  intros Hs. apply Sorted_StronglySorted in Hs; [|exact Rle_Transitive].
  induction Hs as [|a t Ht IH Hall]; [intros []|].
  intros [E|Hz].
  - rewrite <- E. destruct t as [|b t']; [simpl; lra|].
    change (last (a :: b :: t') 0) with (last (b :: t') 0).
    rewrite Forall_forall in Hall. apply Hall, last_in. discriminate.
  - destruct t as [|b t']; [destruct Hz|].
    change (last (a :: b :: t') 0) with (last (b :: t') 0). apply IH, Hz.
Qed.

Lemma sorted_hd_le (l : list R) (z : R) : Sorted Rle l -> In z l -> hd 0 l <= z.
Proof.
  intro Hs. apply Sorted_StronglySorted in Hs; [|exact Rle_Transitive].
  destruct Hs as [|a t _ Hall]; [intros []|].
  intros [<-|Hz]; simpl; [lra|]. rewrite Forall_forall in Hall. apply Hall, Hz.
Qed.

Lemma sorted_lt_le (l : list R) : Sorted Rlt l -> Sorted Rle l.
Proof.
  induction 1 as [|a t _ IH Hh]; constructor; [exact IH|].
  destruct Hh; constructor. lra.
Qed.

Lemma interp1d_call_node (xs ys : list R) (lo hi : R) (k : nat) :
  Sorted Rlt xs -> length xs = length ys -> (k < length xs)%nat ->
  interp1d_call (mkInterp1d xs ys lo hi) (nth k xs 0) = nth k ys 0.
Proof.
  intros Hs Hl Hk.
  assert (Hsle : Sorted Rle xs) by (apply sorted_lt_le, Hs).
  assert (Hin : In (nth k xs 0) xs) by (apply nth_In; exact Hk).
  unfold interp1d_call; cbn [ix iy fill_below fill_above].
  pose proof (sorted_hd_le xs _ Hsle Hin). pose proof (sorted_le_last xs _ Hsle Hin).
  destruct (Rlt_dec (nth k xs 0) (hd 0 xs)); [lra|].
  destruct (Rlt_dec (last xs 0) (nth k xs 0)); [lra|].
  apply interp_scan_node; assumption.
Qed.

Lemma sorted_nodup_lt (l : list R) : Sorted Rle l -> NoDup l -> Sorted Rlt l.
Proof.
  induction 1 as [|a t Ht IH Hh]; intro Hnd; [constructor|].
  inversion Hnd as [|? ? Hna Hnd']; subst. constructor; [apply IH, Hnd'|].
  destruct Hh as [|b t' Hab]; constructor.
  destruct (Req_EM_T a b) as [E|E]; [subst b; exfalso; apply Hna; left; reflexivity|lra].
Qed.

Lemma sorted_map_seq_strict (f : nat -> R) (a k : nat) :
  (forall i, f i < f (S i)) -> Sorted Rlt (map f (seq a k)).
Proof.
  intro Hf. revert a. induction k as [|k IH]; intro a; simpl; [constructor|].
  constructor; [apply IH|]. destruct k; simpl; constructor. apply Hf.
Qed.

Lemma rank_quantiles_strict (n : nat) : (0 < n)%nat -> Sorted Rlt (rank_quantiles n).
Proof.
  intro Hn. apply sorted_map_seq_strict. intro i.
  assert (Hpos : 0 < / INR n) by (apply Rinv_0_lt_compat, lt_0_INR; exact Hn).
  rewrite S_INR. unfold Rdiv. apply Rmult_lt_compat_r; [exact Hpos|lra].
Qed.

(** After an empirical fit on [n >= 2] distinct model values and [n]
    observations, [transform] sends the sorted model data exactly onto the
    sorted observations (the [k]-th smallest model value to the [k]-th
    smallest observation), so [transform(model_data)] is a rearrangement
    of [obs_data]. *)
Theorem empirical_transform_training_ranks (gf : list R -> exn + gamma_params)
    (gc : R -> gamma_params -> pyf) (gp : pyf -> gamma_params -> pyf)
    (md od : list R) (s : QMC) :
  method s = "empirical"%string -> length md = length od -> (2 <= length md)%nat ->
  NoDup md ->
  exists s', fit gf md od s = (s', inr tt) /\
    transform gc gp s' (np_sort md) = inr (map Fin (np_sort od)) /\
    exists out, transform gc gp s' md = inr (map Fin out) /\ Permutation out od.
Proof.
  intros Hm Hl H2 Hnd. exists (empirical_fitted md od s).
  split; [apply fit_empirical; [exact Hm|exact Hl|lia]|].
  assert (Hsort : map (empirical_map md od) (np_sort md) = np_sort od).
  { set (n := length (np_sort md)).
    assert (Hn : n = length md) by apply np_sort_length.
    assert (Hsm : Sorted Rlt (np_sort md)).
    { apply sorted_nodup_lt; [apply np_sort_sorted|].
      eapply Permutation_NoDup; [apply np_sort_perm|exact Hnd]. }
    apply nth_ext with (d := 0) (d' := 0).
    - rewrite length_map, !np_sort_length. exact Hl.
    - intros k Hk. rewrite length_map in Hk. fold n in Hk.
      rewrite nth_indep with (d' := empirical_map md od 0) by (rewrite length_map; exact Hk).
      rewrite map_nth. unfold empirical_map. fold n.
      rewrite interp1d_call_node; [|exact Hsm|rewrite rank_quantiles_length; reflexivity|exact Hk].
      apply interp1d_call_node.
      + apply rank_quantiles_strict. lia.
      + rewrite rank_quantiles_length, np_sort_length. lia.
      + rewrite rank_quantiles_length. exact Hk. }
  split.
  - rewrite transform_empirical_fitted by exact Hm.
    transitivity (@inr exn _ (map Fin (map (empirical_map md od) (np_sort md))));
      [rewrite map_map; reflexivity|rewrite Hsort; reflexivity].
  - exists (map (empirical_map md od) md). split.
    + rewrite transform_empirical_fitted by exact Hm. rewrite map_map. reflexivity.
    + eapply Permutation_trans; [apply Permutation_map, np_sort_perm|].
      rewrite Hsort. apply Permutation_sym, np_sort_perm.
Qed.

Lemma empirical_transform_training_ranks_witness :
  exists s', fit exp_gamma_fit [3; 1; 2] [10; 30; 20] (qmc_init "empirical") = (s', inr tt) /\
    transform exp_gamma_cdf exp_gamma_ppf s' (np_sort [3; 1; 2]) =
      inr (map Fin (np_sort [10; 30; 20])) /\
    exists out, transform exp_gamma_cdf exp_gamma_ppf s' [3; 1; 2] = inr (map Fin out) /\
                Permutation out [10; 30; 20].
Proof.
  apply empirical_transform_training_ranks; [reflexivity|reflexivity|simpl; lia|].
  repeat constructor; simpl; intros H; repeat destruct H as [H|H]; try lra; exact H.
Defined.

(** ** The parametric_gamma correction keeps dry values at zero *)

(** After a successful gamma fit on series with more than two positive
    values each, the two distributions are those fitted on the positive
    values only, and [transform] returns one value per input: [0.0] for
    every input that is not positive, whatever the fitted distributions,
    and [ppf(cdf(v, model_gamma), obs_gamma)] for a positive [v]. *)
Theorem gamma_transform_keeps_zeros (gf : list R -> exn + gamma_params)
    (gc : R -> gamma_params -> pyf) (gp : pyf -> gamma_params -> pyf)
    (md od : list R) (s : QMC) (mg og : gamma_params) :
  method s = "parametric_gamma"%string ->
  (2 < length (filter is_pos md))%nat -> (2 < length (filter is_pos od))%nat ->
  gf (filter is_pos md) = inr mg -> gf (filter is_pos od) = inr og ->
  exists s', fit gf md od s = (s', inr tt) /\ fitted s' = true /\
    model_gamma s' = Some mg /\ obs_gamma s' = Some og /\
    forall vs, exists out, transform gc gp s' vs = inr out /\ length out = length vs /\
      forall k v, nth_error vs k = Some v ->
        nth_error out k = Some (if Rlt_dec 0 v then gp (gc v mg) og else Fin 0).
Proof.
  intros Hm H1 H2 Hg1 Hg2. eexists.
  split; [apply (fit_gamma_ok gf md od s mg og); assumption|].
  split; [reflexivity|]. split; [reflexivity|]. split; [reflexivity|].
  intro vs. eexists. split.
  - unfold transform. cbn [fitted set_fitted negb method set_obs_gamma set_model_gamma
                           set_obs_data set_model_data model_gamma obs_gamma].
    rewrite Hm. cbn [String.eqb Ascii.eqb Bool.eqb]. reflexivity.
  - split; [apply length_map|]. intros k v Hk. rewrite nth_error_map, Hk. cbn [option_map].
    unfold is_pos, Rltb. destruct (Rlt_dec 0 v); reflexivity.
Qed.

Lemma exp_gamma_fit_123 : exp_gamma_fit [1; 2; 3] = inr (1, 0, 2).
Proof.
  unfold exp_gamma_fit, gamma_fit_floc0.
  assert (Hb : forall x, 0 < x -> Rleb x 0 = false).
  { intros x Hx. unfold Rleb. destruct (Rle_dec x 0); [lra|reflexivity]. }
  cbn [existsb]. rewrite !Hb by lra. cbn [orb].
  destruct (Req_EM_T _ 0) as [E|_].
  - exfalso. cbn [sum_R map length INR] in E. rewrite ln_1 in E.
    replace ((1 + (2 + (3 + 0))) / (1 + 1 + 1)) with 2 in E by field.
    assert (L : ln 3 < ln 2 + ln 2).
    { rewrite <- ln_mult by lra. apply ln_increasing; lra. }
    lra.
  - cbv zeta. f_equal. f_equal. cbn [sum_R length INR]. field.
Qed.

Lemma gamma_transform_keeps_zeros_witness :
  exists s', fit exp_gamma_fit [0; 1; 2; 3] [1; 2; 3] (qmc_init "parametric_gamma") = (s', inr tt) /\
    fitted s' = true /\ model_gamma s' = Some (1, 0, 2) /\ obs_gamma s' = Some (1, 0, 2) /\
    forall vs, exists out, transform exp_gamma_cdf exp_gamma_ppf s' vs = inr out /\
      length out = length vs /\
      forall k v, nth_error vs k = Some v ->
        nth_error out k = Some (if Rlt_dec 0 v
                                then exp_gamma_ppf (exp_gamma_cdf v (1, 0, 2)) (1, 0, 2)
                                else Fin 0).
Proof.
  assert (Hp : forall x, 0 < x -> is_pos x = true)
    by (intros x Hx; unfold is_pos, Rltb; destruct (Rlt_dec 0 x); [reflexivity|lra]).
  assert (Hz : is_pos 0 = false)
    by (unfold is_pos, Rltb; destruct (Rlt_dec 0 0); [lra|reflexivity]).
  assert (E1 : filter is_pos [0; 1; 2; 3] = [1; 2; 3])
    by (cbn [filter]; rewrite Hz, !Hp by lra; reflexivity).
  assert (E2 : filter is_pos [1; 2; 3] = [1; 2; 3])
    by (cbn [filter]; rewrite !Hp by lra; reflexivity).
  apply gamma_transform_keeps_zeros; [reflexivity| | | |].
  - rewrite E1. simpl. lia.
  - rewrite E2. simpl. lia.
  - rewrite E1. exact exp_gamma_fit_123.
  - rewrite E2. exact exp_gamma_fit_123.
Defined.

(** ** [compute_statistics] on malformed input *)

Lemma bcast_error {A : Type} (f : A -> A -> A) (xs ys : list A) (e : exn) :
  bcast f xs ys = inl e -> e = ValueError.
Proof.
  unfold bcast. destruct (Nat.eqb _ _); [discriminate|].
  destruct xs as [|x [|x' xt]]; destruct ys as [|y [|y' yt]]; intro H; inversion H; reflexivity.
Qed.

Lemma bcast_mismatch {A : Type} (f : A -> A -> A) (xs ys : list A) :
  length xs <> length ys -> length xs <> 1%nat -> length ys <> 1%nat ->
  bcast f xs ys = inl ValueError.
Proof.
  intros H1 H2 H3. unfold bcast.
  destruct (Nat.eqb_spec (length xs) (length ys)) as [E|_]; [contradiction|].
  destruct xs as [|x [|x' xt]]; [|simpl in H2; lia|];
    destruct ys as [|y [|y' yt]]; try reflexivity; simpl in H3; lia.
Qed.

(** [compute_statistics] raises [ValueError] (from numpy broadcasting,
    before any statistic is computed) when the model or the corrected
    series has a length different from the observations', neither being a
    single value. *)
Theorem compute_statistics_value_error (ks : list R -> list R -> R * R)
    (md od cd : list R) :
  ((length md <> length od /\ length md <> 1%nat /\ length od <> 1%nat) \/
   (length cd <> length od /\ length cd <> 1%nat /\ length od <> 1%nat)) ->
  compute_statistics ks md od cd = inl ValueError.
Proof.
  intro H. unfold compute_statistics. cbv zeta.
  destruct H as [[H1 [H2 H3]]|[H1 [H2 H3]]].
  - rewrite (bcast_mismatch Rminus md od) by assumption. reflexivity.
  - destruct (bcast Rminus md od) as [e|db] eqn:Eb;
      [rewrite (bcast_error _ _ _ _ Eb); reflexivity|].
    rewrite (bcast_mismatch Rminus cd od) by assumption. reflexivity.
Qed.

Lemma compute_statistics_value_error_witness :
  compute_statistics (fun _ _ => (0, 1)) [1; 2; 3] [1; 2] [1; 2] = inl ValueError.
Proof.
  apply compute_statistics_value_error. left. simpl. lia.
Defined.

(** ** The weights of [compute_weights] *)

Lemma dict_get_map_fst {V W : Type} (g : string * V -> W) (k : string) (d : dict V) :
  dict_get k (map (fun p => (fst p, g p)) d) = option_map (fun v => g (k, v)) (dict_get k d).
Proof.
  induction d as [|[k' v'] t IH]; cbn [map dict_get fst]; [reflexivity|].
  destruct (String.eqb_spec k k') as [E|E]; [subst; reflexivity|exact IH].
Qed.

Lemma dict_mem_map_fst {V W : Type} (g : string * V -> W) (k : string) (d : dict V) :
  dict_mem k (map (fun p => (fst p, g p)) d) = dict_mem k d.
Proof. unfold dict_mem. rewrite dict_get_map_fst. destruct (dict_get k d); reflexivity. Qed.

Lemma finite_values_in_iff (l : list pyf) (a : R) : In (Fin a) l -> In a (finite_values l).
Proof.
  induction l as [|b t IH]; [intros []|]. intros [H|H].
  - subst b. left. reflexivity.
  - destruct b; cbn [finite_values]; try (right; apply IH, H); apply IH, H.
Qed.

Lemma exp_le_sum_R_exp (fs : list R) (a : R) :
  In a fs -> Rtrigo_def.exp a <= sum_R (map Rtrigo_def.exp fs).
Proof.
  induction fs as [|x t IH]; [intros []|]. intros [<-|H]; cbn [map sum_R].
  - assert (0 <= sum_R (map Rtrigo_def.exp t)).
    { apply sum_R_nonneg, Forall_forall. intros y Hy. apply in_map_iff in Hy as [z [<- _]].
      left. apply exp_pos. }
    lra.
  - pose proof (exp_pos x). pose proof (IH H). lra.
Qed.

Lemma weight_range (l : list pyf) (x0 : R) (v : pyf) :
  forallb lp_ok l = true -> In (Fin x0) l -> In v l ->
  exists w, PyFloat.exp (sub v (Fin (ln (sum_R (map Rtrigo_def.exp (finite_values l))))))
            = Fin w /\ 0 <= w <= 1.
Proof.
  intros Hok Hx0 Hv. rewrite forallb_forall in Hok. pose proof (Hok v Hv) as Hvok.
  destruct v as [a| | |]; try discriminate.
  - cbn [sub neg add PyFloat.exp]. eexists. split; [reflexivity|].
    pose proof (exp_le_sum_R_exp _ _ (finite_values_in_iff _ _ Hv)) as Hle.
    pose proof (sum_R_exp_pos _ (finite_values_in _ _ Hx0)) as Hpos.
    assert (Ha : a <= ln (sum_R (map Rtrigo_def.exp (finite_values l)))).
    { rewrite <- (ln_exp a) at 1.
      destruct Hle as [Hlt|Heq];
        [left; apply ln_increasing; [apply exp_pos|exact Hlt]|right; rewrite Heq; reflexivity]. }
    split; [left; apply exp_pos|].
    rewrite <- exp_0.
    destruct (Req_dec (a + - ln (sum_R (map Rtrigo_def.exp (finite_values l)))) 0) as [E|E];
      [rewrite E; right; reflexivity|left; apply exp_increasing; lra].
  - cbn [sub neg add PyFloat.exp]. eexists. split; [reflexivity|lra].
Qed.

Lemma compute_weights_weighted (s : BMA) (mp : dict (list R)) (obs : list R)
    (prior_weights : option (dict R)) :
  obs <> [] ->
  (forall name preds, In name (model_names s) -> dict_get name mp = Some preds ->
     length preds = length obs) ->
  (forall name, In name (model_names s) -> dict_mem name mp = true ->
     0 <= prior_of s prior_weights name) ->
  (exists name, In name (model_names s) /\ dict_mem name mp = true /\
     0 < prior_of s prior_weights name) ->
  exists weights,
    snd (compute_weights s mp obs prior_weights) = inr weights /\
    posterior_weights (fst (compute_weights s mp obs prior_weights)) = Some weights /\
    (forall k, dict_mem k weights = true <-> In k (model_names s) /\ dict_mem k mp = true) /\
    (forall p, In p weights -> exists w, snd p = Fin w /\ 0 <= w <= 1).
Proof.
  intros Hobs Hlen Hnn [name0 [Hn0 [Hm0 Hp0]]].
  destruct (likelihood_loop_ok mp obs Hobs (model_names s) [] [] Hlen)
    as [vars [lls [Hloop [Hin Hkeys]]]].
  assert (Hfin : forall p, In p lls ->
            In (fst p) (model_names s) /\ dict_mem (fst p) mp = true /\ is_fin (snd p)).
  { intros p Hp. destruct (Hin p Hp) as [[]|H]. exact H. }
  unfold compute_weights. rewrite Hloop. cbv zeta.
  set (lps := log_posteriors s _ lls).
  assert (Hok : forallb lp_ok (map snd lps) = true).
  { apply forallb_forall. intros v Hv. apply in_map_iff in Hv as [q [Eq Hq]]. subst v.
    unfold lps, log_posteriors in Hq. apply in_map_iff in Hq as [p [Ep Hp]]. subst q.
    destruct (Hfin p Hp) as [H1 [H2 [x Hx]]]. cbn [snd]. rewrite Hx.
    apply log_prior_add_ok. exact (Hnn _ H1 H2). }
  destruct (dict_get name0 lls) as [ll|] eqn:Hll;
    [|exfalso; exact (Hkeys name0 (or_intror (conj Hn0 Hm0)) Hll)].
  apply dict_get_in in Hll.
  destruct (Hfin _ Hll) as [_ [_ [x Hx]]]. cbn [snd] in Hx. subst ll.
  assert (Hx0 : In (Fin (ln (prior_of s prior_weights name0) + x)) (map snd lps)).
  { apply in_map_iff. exists (name0, Fin (ln (prior_of s prior_weights name0) + x)).
    split; [reflexivity|]. unfold lps, log_posteriors. apply in_map_iff.
    exists (name0, Fin x). split; [|exact Hll]. cbn [fst snd].
    rewrite <- log_prior_add_pos by exact Hp0. reflexivity. }
  rewrite (logsumexp_ok _ _ Hok Hx0).
  eexists. split; [reflexivity|]. split; [reflexivity|]. split.
  - intro k. rewrite dict_mem_map_fst. unfold lps, log_posteriors. rewrite dict_mem_map_fst.
    unfold dict_mem. split.
    + destruct (dict_get k lls) as [v|] eqn:E; [|discriminate]. intros _.
      apply dict_get_in in E. destruct (Hfin _ E) as [H1 [H2 _]]. split; assumption.
    + intros [H1 H2]. destruct (dict_get k lls) eqn:E; [reflexivity|].
      exfalso. exact (Hkeys k (or_intror (conj H1 H2)) E).
  - intros p Hp. apply in_map_iff in Hp as [q [<- Hq]]. cbn [snd].
    apply (weight_range _ _ _ Hok Hx0). apply in_map. exact Hq.
Qed.

(** Under the conditions of a successful normalisation (non-empty
    observations, series of the right length, non-negative priors on the
    included models and a positive prior on one of them),
    [compute_weights] stores and returns weights keyed by exactly the
    models of [model_names] present in [models_predictions] (other keys of
    the input are ignored), each a finite number in [[0, 1]]. *)
Theorem compute_weights_keys_and_range (s : BMA) (mp : dict (list R)) (obs : list R)
    (prior_weights : option (dict R)) :
  obs <> [] ->
  (forall name preds, In name (model_names s) -> dict_get name mp = Some preds ->
     length preds = length obs) ->
  (forall name, In name (model_names s) -> dict_mem name mp = true ->
     0 <= prior_of s prior_weights name) ->
  (exists name, In name (model_names s) /\ dict_mem name mp = true /\
     0 < prior_of s prior_weights name) ->
  exists weights,
    snd (compute_weights s mp obs prior_weights) = inr weights /\
    posterior_weights (fst (compute_weights s mp obs prior_weights)) = Some weights /\
    (forall k, dict_mem k weights = true <-> In k (model_names s) /\ dict_mem k mp = true) /\
    (forall p, In p weights -> exists w, snd p = Fin w /\ 0 <= w <= 1).
Proof. exact (compute_weights_weighted s mp obs prior_weights). Qed.

Lemma compute_weights_keys_and_range_witness :
  exists weights,
    snd (compute_weights (bma_init ["A"%string; "B"%string])
           [("A"%string, [1; 2]); ("C"%string, [0; 0]); ("B"%string, [2; 2])] [1; 3] None)
      = inr weights /\
    posterior_weights (fst (compute_weights (bma_init ["A"%string; "B"%string])
           [("A"%string, [1; 2]); ("C"%string, [0; 0]); ("B"%string, [2; 2])] [1; 3] None))
      = Some weights /\
    (forall k, dict_mem k weights = true <->
       In k (model_names (bma_init ["A"%string; "B"%string])) /\
       dict_mem k [("A"%string, [1; 2]); ("C"%string, [0; 0]); ("B"%string, [2; 2])] = true) /\
    (forall p, In p weights -> exists w, snd p = Fin w /\ 0 <= w <= 1).
Proof.
  apply compute_weights_keys_and_range.
  - discriminate.
  - intros name preds [H|[H|[]]] Hg; subst name; cbn in Hg; inversion Hg; reflexivity.
  - intros name [H|[H|[]]] _; subst name; unfold prior_of; cbn;
      apply Rlt_le, Rinv_0_lt_compat; lra.
  - exists "A"%string. split; [left; reflexivity|]. split; [reflexivity|].
    unfold prior_of. cbn. apply Rinv_0_lt_compat; lra.
Defined.

(** ** [predict] on aligned input *)

(** A float array of length [m] whose entries are all finite and satisfy [P]. *)
Definition fin_array (P : R -> Prop) (m : nat) (l : list pyf) : Prop :=
  length l = m /\ forall x, In x l -> exists r, x = Fin r /\ P r.

Lemma repeat_fin_array (P : R -> Prop) (m : nat) :
  P 0 -> fin_array P m (repeat (Fin 0) m).
Proof.
  intro H0. split; [apply repeat_length|].
  intros x Hx. apply repeat_spec in Hx. subst x. exists 0. split; [reflexivity|exact H0].
Qed.

Lemma vadd_fin_array (P : R -> Prop) (m : nat) (a b : list pyf) :
  (forall x y, P x -> P y -> P (x + y)) ->
  fin_array P m a -> fin_array P m b -> fin_array P m (vadd a b).
Proof.
  intros HP [La Ha] [Lb Hb]. unfold vadd. split.
  - rewrite length_map, length_combine, La, Lb. apply Nat.min_id.
  - intros x Hx. apply in_map_iff in Hx as [[u v] [<- Hin]]. cbn [fst snd].
    destruct (Ha u (in_combine_l _ _ _ _ Hin)) as [x [-> Px]].
    destruct (Hb v (in_combine_r _ _ _ _ Hin)) as [y [-> Py]].
    exists (x + y). split; [reflexivity|apply HP; assumption].
Qed.

Lemma nth_error_combine {A B : Type} (a : list A) (b : list B) (j : nat) :
  nth_error (combine a b) j =
  match nth_error a j, nth_error b j with
  | Some x, Some y => Some (x, y)
  | _, _ => None
  end.
Proof.
  revert b j. induction a as [|x a IH]; intros b j; [destruct j; reflexivity|].
  destruct b as [|y b]; [destruct j; cbn; [reflexivity|destruct (nth_error a j); reflexivity]|].
  destruct j; [reflexivity|]. cbn. apply IH.
Qed.

Lemma fin_array_nth (P : R -> Prop) (m : nat) (l : list pyf) (j : nat) :
  fin_array P m l -> (j < m)%nat -> exists r, nth_error l j = Some (Fin r) /\ P r.
Proof.
  intros [L H] Hj. destruct (nth_error l j) as [x|] eqn:E.
  - destruct (H x (nth_error_In _ _ E)) as [r [-> Pr]]. exists r. split; [reflexivity|exact Pr].
  - apply nth_error_None in E. lia.
Qed.

Lemma filter_all_true {A : Type} (f : A -> bool) (l : list A) :
  (forall x, In x l -> f x = true) -> filter f l = l.
Proof.
  induction l as [|a t IH]; intro H; [reflexivity|]. cbn [filter].
  rewrite (H a (or_introl eq_refl)), IH by (intros x Hx; apply H; right; exact Hx).
  reflexivity.
Qed.

Lemma filter_all_false {A : Type} (f : A -> bool) (l : list A) :
  (forall x, In x l -> f x = false) -> filter f l = [].
Proof.
  induction l as [|a t IH]; intro H; [reflexivity|]. cbn [filter].
  rewrite (H a (or_introl eq_refl)). apply IH. intros x Hx. apply H. right. exact Hx.
Qed.

Section AlignedPredict.

Variable s : BMA.
Variable pw mv : dict pyf.
Variable m : nat.
Hypothesis Hpw : posterior_weights s = Some pw.
Hypothesis Hmv : model_variances s = Some mv.
Hypothesis Hpw_fin : forall k v, dict_get k pw = Some v -> exists w, v = Fin w /\ 0 <= w.
Hypothesis Hmv_fin : forall k v, dict_get k mv = Some v -> exists w, v = Fin w /\ 0 <= w.

Lemma aligned_weight (k : string) :
  dict_mem k pw = true -> exists w, dict_get_default k pw NaN = Fin w /\ 0 <= w.
Proof.
  unfold dict_mem, dict_get_default. destruct (dict_get k pw) as [v|] eqn:E; [|discriminate].
  intros _. exact (Hpw_fin k v E).
Qed.

Lemma aligned_variance (k : string) :
  exists v, dict_get_default k mv (Fin 1) = Fin v /\ 0 <= v.
Proof.
  unfold dict_get_default. destruct (dict_get k mv) as [v|] eqn:E.
  - exact (Hmv_fin k v E).
  - exists 1. split; [reflexivity|lra].
Qed.

Lemma aligned_mean_fold (l : list (pyf * list R)) (acc : list pyf) :
  fin_array (fun _ => True) m acc ->
  (forall p, In p l -> (exists w, fst p = Fin w) /\ length (snd p) = m) ->
  fin_array (fun _ => True) m
    (fold_left (fun acc p => vadd acc (map (fun x => mul (fst p) (Fin x)) (snd p))) l acc).
Proof.
  revert acc. induction l as [|[w row] l IH]; intros acc Hacc Hl; [exact Hacc|].
  cbn [fold_left fst snd]. apply IH; [|intros p Hp; apply Hl; right; exact Hp].
  destruct (Hl (w, row) (or_introl eq_refl)) as [[w0 Ew] Lr]. cbn [fst snd] in Ew, Lr. subst w.
  apply vadd_fin_array; [auto|exact Hacc|]. split.
  - rewrite length_map. exact Lr.
  - intros x Hx. apply in_map_iff in Hx as [y [<- _]]. exists (w0 * y). split; [reflexivity|exact I].
Qed.

Lemma aligned_variance_loop (pre l : dict (list R)) (bm wv bv : list pyf) :
  fin_array (fun _ => True) m bm ->
  fin_array (Rle 0) m wv -> fin_array (Rle 0) m bv ->
  (forall k row, In (k, row) l -> dict_mem k pw = true /\ length row = m) ->
  exists wv' bv',
    variance_loop s pw (map snd pre ++ map snd l) bm (map fst l) (length pre) wv bv
      = inr (wv', bv') /\
    fin_array (Rle 0) m wv' /\ fin_array (Rle 0) m bv'.
Proof.
  revert pre wv bv. induction l as [|[k row] l IH]; intros pre wv bv Hbm Hwv Hbv Hl.
  - exists wv, bv. split; [reflexivity|split; assumption].
  - destruct (Hl k row (or_introl eq_refl)) as [Hk Lr].
    cbn [map fst snd variance_loop]. rewrite Hk, Hmv.
    rewrite nth_error_app2 by (rewrite length_map; lia). rewrite length_map, Nat.sub_diag.
    cbn [nth_error].
    destruct (aligned_weight k Hk) as [w [Ew Hw]]. rewrite Ew.
    destruct (aligned_variance k) as [v [Ev Hv]]. rewrite Ev.
    replace (map snd pre ++ row :: map snd l) with (map snd (pre ++ [(k, row)]) ++ map snd l)
      by (rewrite map_app, <- app_assoc; reflexivity).
    replace (S (length pre)) with (length (pre ++ [(k, row)]))
      by (rewrite length_app; cbn; lia).
    apply IH.
    + exact Hbm.
    + destruct Hwv as [Lw Hw']. split; [rewrite length_map; exact Lw|].
      intros x Hx. apply in_map_iff in Hx as [a [<- Ha]].
      destruct (Hw' a Ha) as [r [-> Hr]]. exists (r + w * v). split; [reflexivity|].
      apply Rplus_le_le_0_compat; [exact Hr|apply Rmult_le_pos; assumption].
    + apply vadd_fin_array; [intros; lra|exact Hbv|]. split.
      * rewrite length_map, length_combine, Lr, (proj1 Hbm). apply Nat.min_id.
      * intros x Hx. apply in_map_iff in Hx as [[y b] [<- Hin]]. cbn [fst snd].
        destruct (proj2 Hbm b (in_combine_r _ _ _ _ Hin)) as [r [-> _]].
        exists (w * ((y + - r) * (y + - r))). split; [reflexivity|].
        apply Rmult_le_pos; [exact Hw|apply Rle_0_sqr].
    + intros k' row' Hin. apply Hl. right. exact Hin.
Qed.

Lemma aligned_predict_moments (mp : dict (list R)) :
  mp <> [] ->
  (forall k row, In (k, row) mp -> dict_mem k pw = true /\ length row = m) ->
  exists bm wv bv, predict_moments s mp = inr (bm, wv, bv) /\
    fin_array (fun _ => True) m bm /\ fin_array (Rle 0) m wv /\ fin_array (Rle 0) m bv.
Proof.
  intros Hne Hal. unfold predict_moments. rewrite Hpw. cbv zeta.
  rewrite filter_all_true
    by (intros [k row] Hin; exact (proj1 (Hal k row Hin))).
  destruct (map snd mp) as [|r0 rs] eqn:Es.
  { destruct mp; [congruence|discriminate]. }
  assert (Lr0 : length r0 = m).
  { assert (Hr0 : In r0 (map snd mp)) by (rewrite Es; left; reflexivity).
    apply in_map_iff in Hr0 as [[k row] [<- Hin]]. exact (proj2 (Hal k row Hin)). }
  replace (forallb (fun r => Nat.eqb (length r) (length r0)) (r0 :: rs)) with true.
  2:{ symmetry. apply forallb_forall. intros r Hr. rewrite <- Es in Hr.
      apply in_map_iff in Hr as [[k row] [<- Hin]].
      apply Nat.eqb_eq. cbn [snd]. rewrite Lr0. exact (proj2 (Hal k row Hin)). }
  rewrite <- Es, Lr0.
  set (bm := fold_left _ _ _).
  assert (Hbm : fin_array (fun _ => True) m bm).
  { apply aligned_mean_fold; [apply repeat_fin_array; exact I|].
    intros [w row] Hin. cbn [fst snd]. split.
    - apply in_combine_l in Hin. apply in_map_iff in Hin as [[k row'] [<- Hin]].
      destruct (aligned_weight k (proj1 (Hal k row' Hin))) as [w0 [E _]].
      exists w0. exact E.
    - apply in_combine_r in Hin. apply in_map_iff in Hin as [[k row'] [<- Hin]].
      exact (proj2 (Hal k row' Hin)). }
  destruct (aligned_variance_loop [] mp bm (repeat (Fin 0) m) (repeat (Fin 0) m) Hbm
              (repeat_fin_array _ m (Rle_refl 0)) (repeat_fin_array _ m (Rle_refl 0)) Hal)
    as [wv [bv [Hloop [Hwv Hbv]]]].
  cbn [map app length] in Hloop. rewrite Hloop.
  exists bm, wv, bv. split; [reflexivity|]. split; [exact Hbm|split; assumption].
Qed.

Lemma predict_aligned (mp : dict (list R)) :
  mp <> [] ->
  (forall k row, In (k, row) mp -> dict_mem k pw = true /\ length row = m) ->
  exists r, predict s mp = inr r /\
    length (pred_mean r) = m /\ length (pred_std r) = m /\
    forall j, (j < m)%nat -> exists mu sd,
      nth_error (pred_mean r) j = Some (Fin mu) /\
      nth_error (pred_std r) j = Some (Fin sd) /\ 0 <= sd /\
      nth_error (lower_95 r) j = Some (Fin (mu - z95 * sd)) /\
      nth_error (upper_95 r) j = Some (Fin (mu + z95 * sd)) /\
      mu - z95 * sd <= mu <= mu + z95 * sd.
Proof.
  intros Hne Hal. unfold predict.
  destruct (aligned_predict_moments mp Hne Hal) as [bm [wv [bv [E [Hbm [Hwv Hbv]]]]]].
  rewrite E.
  assert (Hvar : fin_array (Rle 0) m (vadd wv bv))
    by (apply vadd_fin_array; [intros; lra|assumption|assumption]).
  eexists. split; [reflexivity|]. cbn [pred_mean pred_std lower_95 upper_95].
  split; [exact (proj1 Hbm)|]. split; [rewrite length_map; exact (proj1 Hvar)|].
  intros j Hj.
  destruct (fin_array_nth _ _ _ j Hbm Hj) as [mu [Emu _]].
  destruct (fin_array_nth _ _ _ j Hvar Hj) as [v [Ev Hv]].
  assert (Esd : nth_error (map PyFloat.sqrt (vadd wv bv)) j = Some (Fin (R_sqrt.sqrt v))).
  { rewrite nth_error_map, Ev. cbn [option_map PyFloat.sqrt].
    destruct (Rle_dec 0 v) as [_|C]; [reflexivity|contradiction]. }
  exists mu, (R_sqrt.sqrt v).
  pose proof (R_sqrt.sqrt_pos v) as Hsd.
  assert (Hz : 0 <= z95) by (unfold z95; lra).
  split; [exact Emu|]. split; [exact Esd|]. split; [exact Hsd|].
  rewrite !nth_error_map, !nth_error_combine, Emu, Esd. cbn [option_map fst snd].
  split; [cbn [sub add neg mul]; f_equal; f_equal; ring|].
  split; [cbn [add mul]; reflexivity|].
  pose proof (Rmult_le_pos _ _ Hz Hsd). lra.
Qed.

(** When every model of [models_predictions] has a posterior weight, the
    weights and stored variances are finite and non-negative, and every row
    has length [m], [predict] returns: the row index [i] then always matches
    the stacked row. Every entry of [mean] and [std] is finite, [std] is
    non-negative, and the 95% band is [mean -+ 1.96 * std], so it contains
    the mean. *)
Theorem predict_aligned_returns (mp : dict (list R)) :
  mp <> [] ->
  (forall k row, In (k, row) mp -> dict_mem k pw = true /\ length row = m) ->
  exists r, predict s mp = inr r /\
    length (pred_mean r) = m /\ length (pred_std r) = m /\
    forall j, (j < m)%nat -> exists mu sd,
      nth_error (pred_mean r) j = Some (Fin mu) /\
      nth_error (pred_std r) j = Some (Fin sd) /\ 0 <= sd /\
      nth_error (lower_95 r) j = Some (Fin (mu - z95 * sd)) /\
      nth_error (upper_95 r) j = Some (Fin (mu + z95 * sd)) /\
      mu - z95 * sd <= mu <= mu + z95 * sd.
Proof. exact (predict_aligned mp). Qed.

End AlignedPredict.

Lemma predict_aligned_returns_witness :
  exists r, predict (mkBMA ["A"%string; "B"%string] 2%nat
                       (Some [("A"%string, Fin (1/4)); ("B"%string, Fin (3/4))])
                       (Some [("A"%string, Fin 1)]))
              [("B"%string, [1; 2]); ("A"%string, [3; 0])] = inr r /\
    length (pred_mean r) = 2%nat /\ length (pred_std r) = 2%nat /\
    forall j, (j < 2)%nat -> exists mu sd,
      nth_error (pred_mean r) j = Some (Fin mu) /\
      nth_error (pred_std r) j = Some (Fin sd) /\ 0 <= sd /\
      nth_error (lower_95 r) j = Some (Fin (mu - z95 * sd)) /\
      nth_error (upper_95 r) j = Some (Fin (mu + z95 * sd)) /\
      mu - z95 * sd <= mu <= mu + z95 * sd.
Proof.
  apply (predict_aligned_returns
           (mkBMA ["A"%string; "B"%string] 2%nat
              (Some [("A"%string, Fin (1/4)); ("B"%string, Fin (3/4))])
              (Some [("A"%string, Fin 1)]))
           _ _ 2%nat eq_refl eq_refl).
  - intros k v H. cbn in H. destruct (String.eqb k "A"); [injection H as <-; exists (1/4); split; [reflexivity|lra]|].
    destruct (String.eqb k "B"); [injection H as <-; exists (3/4); split; [reflexivity|lra]|discriminate].
  - intros k v H. cbn in H. destruct (String.eqb k "A"); [injection H as <-; exists 1; split; [reflexivity|lra]|discriminate].
  - discriminate.
  - intros k row [H|[H|[]]]; injection H as <- <-; split; reflexivity.
Defined.

(** [predict] raises [ValueError] before any weights were computed and
    [IndexError] when no model of [models_predictions] has a posterior
    weight: the stack [all_preds] is empty. *)
Theorem predict_no_weighted_model (s : BMA) (mp : dict (list R)) :
  (forall pw, posterior_weights s = Some pw -> forall k, In k (map fst mp) -> dict_mem k pw = false) ->
  predict s mp = inl (match posterior_weights s with None => ValueError | Some _ => IndexError end).
Proof.
  intro H. unfold predict, predict_moments.
  destruct (posterior_weights s) as [pw|] eqn:Epw; [|reflexivity].
  replace (filter (fun p => dict_mem (fst p) pw) mp) with (@nil (string * list R)); [reflexivity|].
  symmetry. apply filter_all_false. intros [k row] Hin. cbn [fst].
  apply (H pw eq_refl k). apply in_map_iff. exists (k, row). split; [reflexivity|exact Hin].
Qed.

Lemma predict_no_weighted_model_witness :
  predict (mkBMA ["A"%string] 1 (Some [("A"%string, Fin 1)]) None) [("B"%string, [1; 2])]
    = inl IndexError.
Proof.
  apply (predict_no_weighted_model (mkBMA ["A"%string] 1 (Some [("A"%string, Fin 1)]) None)).
  intros pw E k [<-|[]]. injection E as <-. reflexivity.
Defined.

(** ** [run_bma]: weights, then the prediction *)

(** The first two steps of [run_bma]: a fresh [BayesianModelAveraging]
    over the keys of [models_predictions], [compute_weights], then
    [predict] on the same dictionary. The metrics computed afterwards are
    not modelled. *)
Definition run_bma_prediction (models_predictions : dict (list R)) (observations : list R)
    (prior_weights : option (dict R)) : exn + (dict pyf * bma_prediction) :=
  let bma := bma_init (map fst models_predictions) in
  match compute_weights bma models_predictions observations prior_weights with
  | (_, inl e) => inl e
  | (bma', inr weights) =>
      match predict bma' models_predictions with
      | inl e => inl e
      | inr prediction => inr (weights, prediction)
      end
  end.

Lemma dict_mem_keys {V : Type} (k : string) (d : dict V) : In k (map fst d) -> dict_mem k d = true.
Proof.
  induction d as [|[k' v'] t IH]; [intros []|]. intros [E|H]; unfold dict_mem; cbn [dict_get].
  - cbn [fst] in E. subst k'. rewrite String.eqb_refl. reflexivity.
  - destruct (String.eqb k k'); [reflexivity|]. exact (IH H).
Qed.

Lemma likelihood_loop_variances (mp : dict (list R)) (obs : list R) :
  obs <> [] ->
  forall names vars lls vars' lls',
  (forall name preds, In name names -> dict_get name mp = Some preds ->
     length preds = length obs) ->
  (forall k v, dict_get k vars = Some v -> exists w, v = Fin w /\ 0 <= w) ->
  likelihood_loop names mp obs vars lls = inr (vars', lls') ->
  forall k v, dict_get k vars' = Some v -> exists w, v = Fin w /\ 0 <= w.
Proof.
  intros Hobs names. induction names as [|name rest IH]; intros vars lls vars' lls' Hlen Hv H.
  - inversion H. subst. exact Hv.
  - cbn [likelihood_loop] in H.
    assert (Hrest : forall n p, In n rest -> dict_get n mp = Some p -> length p = length obs)
      by (intros n p Hn; apply Hlen; right; exact Hn).
    destruct (dict_get name mp) as [preds|] eqn:Hg; [|exact (IH _ _ _ _ Hrest Hv H)].
    destruct (estimate_variance_pos preds obs Hobs (Hlen name preds (or_introl eq_refl) Hg))
      as [v0 [Hv0 Hpos]].
    rewrite Hv0 in H.
    destruct (compute_log_likelihood preds obs (Fin v0)) as [e|ll]; [discriminate|].
    refine (IH _ _ _ _ Hrest _ H).
    intros k v. rewrite dict_get_set. destruct (String.eqb k name).
    + intro E. injection E as <-. exists v0. split; [reflexivity|lra].
    + apply Hv.
Qed.

(** On non-empty observations and predictions, with every series as long
    as the observations and priors as in [compute_weights] (non-negative,
    one of them positive), the first two steps of [run_bma] return: the
    weights are keyed by exactly the models of [models_predictions] and
    lie in [[0, 1]]; since every model is weighted, [predict]'s row index
    never runs past the stack, and its mean and std have one finite entry
    per observation, the std non-negative and the 95% band around the
    mean. *)
Theorem run_bma_prediction_returns (mp : dict (list R)) (obs : list R)
    (prior_weights : option (dict R)) :
  mp <> [] -> obs <> [] ->
  (forall k row, In (k, row) mp -> length row = length obs) ->
  (forall name, In name (map fst mp) ->
     0 <= prior_of (bma_init (map fst mp)) prior_weights name) ->
  (exists name, In name (map fst mp) /\
     0 < prior_of (bma_init (map fst mp)) prior_weights name) ->
  exists weights r,
    run_bma_prediction mp obs prior_weights = inr (weights, r) /\
    (forall k, dict_mem k weights = true <-> In k (map fst mp)) /\
    (forall p, In p weights -> exists w, snd p = Fin w /\ 0 <= w <= 1) /\
    length (pred_mean r) = length obs /\ length (pred_std r) = length obs /\
    forall j, (j < length obs)%nat -> exists mu sd,
      nth_error (pred_mean r) j = Some (Fin mu) /\
      nth_error (pred_std r) j = Some (Fin sd) /\ 0 <= sd /\
      nth_error (lower_95 r) j = Some (Fin (mu - z95 * sd)) /\
      nth_error (upper_95 r) j = Some (Fin (mu + z95 * sd)) /\
      mu - z95 * sd <= mu <= mu + z95 * sd.
Proof.
  intros Hne Hobs Hrow Hnn Hpos.
  set (s := bma_init (map fst mp)).
  assert (Hlen : forall name preds, In name (model_names s) -> dict_get name mp = Some preds ->
                   length preds = length obs)
    by (intros name preds _ Hg; exact (Hrow _ _ (dict_get_in _ _ _ Hg))).
  destruct (compute_weights_weighted s mp obs prior_weights Hobs Hlen
              (fun name Hn _ => Hnn name Hn))
    as [weights [Hsnd [Hpost [Hkeys Hrange]]]].
  { destruct Hpos as [name [Hn Hp]]. exists name. split; [exact Hn|].
    split; [exact (dict_mem_keys _ _ Hn)|exact Hp]. }
  destruct (likelihood_loop_ok mp obs Hobs (model_names s) [] [] Hlen)
    as [vars [lls [Hloop _]]].
  pose proof (compute_weights_variances s mp obs prior_weights _ _ Hloop) as Hmv.
  assert (Hnil : forall k v, dict_get k (@nil (string * pyf)) = Some v ->
                  exists w, v = Fin w /\ 0 <= w) by (intros k v H; discriminate H).
  pose proof (likelihood_loop_variances mp obs Hobs _ _ _ _ _ Hlen Hnil Hloop) as Hmv_fin.
  unfold run_bma_prediction. fold s.
  destruct (compute_weights s mp obs prior_weights) as [s' w] eqn:Ecw.
  cbn [fst snd] in Hsnd, Hpost, Hmv. subst w.
  assert (Hkeys' : forall k, dict_mem k weights = true <-> In k (map fst mp)).
  { intro k. rewrite Hkeys. split; [intros [H _]; exact H|].
    intro H. split; [exact H|exact (dict_mem_keys _ _ H)]. }
  destruct (predict_aligned s' weights vars (length obs) Hpost Hmv) with (mp := mp)
    as [r [Hr Hrest]].
  - intros k v Hg. destruct (Hrange _ (dict_get_in _ _ _ Hg)) as [x [Ex Hx]].
    exists x. split; [exact Ex|apply Hx].
  - exact Hmv_fin.
  - exact Hne.
  - intros k row Hin. split; [|exact (Hrow _ _ Hin)].
    apply Hkeys'. apply in_map_iff. exists (k, row). split; [reflexivity|exact Hin].
  - rewrite Hr. exists weights, r. split; [reflexivity|].
    split; [exact Hkeys'|]. split; [exact Hrange|exact Hrest].
Qed.

Lemma run_bma_prediction_returns_witness :
  exists weights r,
    run_bma_prediction [("IFS"%string, [20; 21]); ("GFS"%string, [19; 22])] [20; 21] None
      = inr (weights, r) /\
    (forall k, dict_mem k weights = true <->
       In k (map fst [("IFS"%string, [20; 21]); ("GFS"%string, [19; 22])])) /\
    (forall p, In p weights -> exists w, snd p = Fin w /\ 0 <= w <= 1) /\
    length (pred_mean r) = length [20; 21] /\ length (pred_std r) = length [20; 21] /\
    forall j, (j < length [20; 21])%nat -> exists mu sd,
      nth_error (pred_mean r) j = Some (Fin mu) /\
      nth_error (pred_std r) j = Some (Fin sd) /\ 0 <= sd /\
      nth_error (lower_95 r) j = Some (Fin (mu - z95 * sd)) /\
      nth_error (upper_95 r) j = Some (Fin (mu + z95 * sd)) /\
      mu - z95 * sd <= mu <= mu + z95 * sd.
Proof.
  apply run_bma_prediction_returns.
  - discriminate.
  - discriminate.
  - intros k row [H|[H|[]]]; injection H as <- <-; reflexivity.
  - intros name [H|[H|[]]]; subst name; unfold prior_of; cbn;
      apply Rlt_le, Rinv_0_lt_compat; lra.
  - exists "IFS"%string. split; [left; reflexivity|]. unfold prior_of. cbn.
    apply Rinv_0_lt_compat; lra.
Defined.

